(** * Sigma-delta modulator of SoX (sdm.h): trellis engine and streaming APIs

    The repository ships only the interface [src/src/sdm.h]; the
    implementation file is not part of the sources.  Every operation below
    is therefore modelled from the spec (sections 3 and 4), with the names,
    limits and signatures of [sdm.h].  The numeric parts the spec leaves
    open (the coefficient tables of the filter bank, the loop filter, the
    floating-point cost) are an interface, the type class [FilterBank]; the
    theorems hold for every instance of it. *)

From Stdlib Require Import String List Arith Lia ZArith Bool.
Import ListNotations.
Open Scope list_scope.

(** Limits of [sdm.h]. *)
Definition SDM_TRELLIS_MAX_ORDER : nat := 32.
Definition SDM_TRELLIS_MAX_NUM : nat := 32.
Definition SDM_TRELLIS_MAX_LAT : nat := 2048.

(** [sox_sample_t] limits (32-bit signed samples). *)
Definition SOX_SAMPLE_MAX : Z := 2147483647.
Definition SOX_SAMPLE_MIN : Z := -2147483648.

(** Error kinds of the spec, section 7. *)
Inductive sdm_error := ConfigError | InvalidArgument.

Inductive result (A : Type) : Type :=
| Ok (a : A)
| Err (e : sdm_error).
Arguments Ok {A} a.
Arguments Err {A} e.

(** Modelled from the spec: the Filter Bank (section 4.1) and the numeric
    domain of the engine.  [fb_lookup] maps a filter name and a rate to a
    coefficient set ([None]: unknown name); [fb_state0] is the zeroed filter
    history for a trellis order; [fb_step] runs one input sample minus the
    reconstructed value of the chosen bit through the loop filter and
    returns the new filter state and the incremental cost.  [smp_of_sample]
    converts a fixed-point [sox_sample_t] to the engine's floating-point
    sample (the packet API receives those directly). *)
Class FilterBank (Smp Coef FState Cost : Type) := {
  fb_lookup : string -> nat -> option Coef;
  fb_state0 : Coef -> nat -> FState;
  fb_step : Coef -> nat -> FState -> Smp -> bool -> FState * Cost;
  cost_zero : Cost;
  cost_add : Cost -> Cost -> Cost;
  cost_ltb : Cost -> Cost -> bool;
  smp_of_sample : Z -> Smp
}.

(** Modelled from the spec: output sample of the sample-domain API; bit 1
    is full-scale positive, bit 0 full-scale negative. *)
Definition out_sample (b : bool) : Z := if b then SOX_SAMPLE_MAX else SOX_SAMPLE_MIN.

(** Reading a bit back from an output sample. *)
Definition sample_bit (s : Z) : bool := Z.ltb 0 s.

(** Modelled from the spec: bit packing (packet API), most significant bit
    first; the accumulator is shifted left and the new bit enters at bit 0. *)
Definition push_bit (acc : Z) (b : bool) : Z := Z.lor (Z.shiftl acc 1) (Z.b2z b).

(** The [n] low bits of [v], most significant first. *)
Fixpoint bits_of (n : nat) (v : Z) : list bool :=
  match n with
  | O => []
  | S k => Z.testbit v (Z.of_nat k) :: bits_of k v
  end.

(** Unpacking a byte stream, 8 bits per byte, most significant first. *)
Definition unpack (bytes : list Z) : list bool := flat_map (bits_of 8) bytes.

Definition opt_bits (o : option bool) : list bool :=
  match o with Some b => [b] | None => [] end.

Section Trellis.

Context {Smp Coef FState Cost : Type} `{FB : FilterBank Smp Coef FState Cost}.

(** Modelled from the spec: trellis configuration, fixed at construction. *)
Record sdm_config := {
  coefs : Coef;
  trellis_order : nat;
  trellis_num : nat;
  trellis_latency : nat
}.

(** Modelled from the spec: a candidate path, with its filter-state snapshot, undecided bits (oldest
    first) and accumulated cost. *)
Record path := {
  p_state : FState;
  p_bits : list bool;
  p_cost : Cost
}.

(** Modelled from the spec: the modulator instance [struct sdm]. *)
Record sdm := {
  cfg : sdm_config;
  cands : list path;
  pending : list bool;
  packet : Z;
  packet_bits : nat
}.

Definition set_cands (s : sdm) (cs : list path) : sdm :=
  {| cfg := cfg s; cands := cs; pending := pending s; packet := packet s;
     packet_bits := packet_bits s |}.
Definition set_pending (s : sdm) (q : list bool) : sdm :=
  {| cfg := cfg s; cands := cands s; pending := q; packet := packet s;
     packet_bits := packet_bits s |}.
Definition set_packet (s : sdm) (acc : Z) (n : nat) : sdm :=
  {| cfg := cfg s; cands := cands s; pending := pending s; packet := acc;
     packet_bits := n |}.

(** Modelled from the spec: Extend, one path with one candidate bit. *)
Definition extend (c : sdm_config) (x : Smp) (p : path) (bit : bool) : path :=
  let '(f', dc) := fb_step (coefs c) (trellis_order c) (p_state p) x bit in
  {| p_state := f'; p_bits := p_bits p ++ [bit]; p_cost := cost_add (p_cost p) dc |}.

(** Modelled from the spec: Prune, an insertion sort by accumulated cost; a path goes after every
    path of equal cost already placed, so ties keep extension order. *)
Fixpoint insert_path (p : path) (l : list path) : list path :=
  match l with
  | [] => [p]
  | q :: l' => if cost_ltb (p_cost p) (p_cost q) then p :: l else q :: insert_path p l'
  end.

Definition sort_paths (l : list path) : list path :=
  fold_left (fun acc p => insert_path p acc) l [].

Definition prune (c : sdm_config) (l : list path) : list path :=
  firstn (trellis_num c) (sort_paths l).

Definition trim (p : path) : path :=
  {| p_state := p_state p; p_bits := tl (p_bits p); p_cost := p_cost p |}.

(** Modelled from the spec: Finalize; once the oldest undecided bit is [trellis_latency] samples
    old, the best path's bit is final and every path is trimmed. *)
Definition finalize (c : sdm_config) (cs : list path) : list path * option bool :=
  match cs with
  | best :: _ =>
      match p_bits best with
      | b :: _ =>
          if trellis_latency c <? length (p_bits best) then (map trim cs, Some b)
          else (cs, None)
      | [] => (cs, None)
      end
  | [] => (cs, None)
  end.

(** Modelled from the spec: one extend, prune, finalize cycle. *)
Definition trellis_step (c : sdm_config) (x : Smp) (cs : list path) : list path * option bool :=
  finalize c (prune c (flat_map (fun p => [extend c x p false; extend c x p true]) cs)).

Fixpoint trellis_run (c : sdm_config) (xs : list Smp) (cs : list path) : list path * list bool :=
  match xs with
  | [] => (cs, [])
  | x :: xs' =>
      let '(cs1, ob) := trellis_step c x cs in
      let '(cs2, fin) := trellis_run c xs' cs1 in
      (cs2, opt_bits ob ++ fin)
  end.

(** Modelled from the spec: Flush gives the undecided suffix of the best path. *)
Definition flush_bits (cs : list path) : list bool :=
  match cs with best :: _ => p_bits best | [] => [] end.

(** All bits the engine ever finalizes for the input [xs]: the bits
    finalized while processing, then the flushed suffix. *)
Definition trellis_output (c : sdm_config) (cs : list path) (xs : list Smp) : list bool :=
  let '(cs', fin) := trellis_run c xs cs in fin ++ flush_bits cs'.

(** Modelled from the spec: engine step on the instance; finalized bits go to the pending queue. *)
Definition sdm_step (x : Smp) (s : sdm) : sdm :=
  let '(cs, ob) := trellis_step (cfg s) x (cands s) in
  set_pending (set_cands s cs) (pending s ++ opt_bits ob).

(** Modelled from the spec: the start path of [sdm_init]. *)
Definition root_path (c : Coef) (order : nat) : path :=
  {| p_state := fb_state0 c order; p_bits := []; p_cost := cost_zero |}.

(** Modelled from the spec: [sdm_init], with the limits of [sdm.h]. *)
Definition sdm_init (filter_name : string) (freq trellis_order trellis_num trellis_latency : nat)
  : result sdm :=
  match fb_lookup filter_name freq with
  | None => Err ConfigError
  | Some c =>
      if SDM_TRELLIS_MAX_ORDER <? trellis_order then Err ConfigError
      else if SDM_TRELLIS_MAX_NUM <? trellis_num then Err ConfigError
      else if SDM_TRELLIS_MAX_LAT <? trellis_latency then Err ConfigError
      else Ok {| cfg := {| coefs := c; trellis_order := trellis_order;
                           trellis_num := trellis_num; trellis_latency := trellis_latency |};
                 cands := firstn trellis_num [root_path c trellis_order];
                 pending := []; packet := 0; packet_bits := 0 |}
  end.

(** ** Sample-domain streaming API *)

(** Modelled from the spec: copy pending bits into the output while room is left. *)
Fixpoint emit (room : nat) (q : list bool) : list bool * nat * list bool :=
  match room, q with
  | O, _ => ([], O, q)
  | _, [] => ([], room, [])
  | S r, b :: q' => let '(o, r', q'') := emit r q' in (b :: o, r', q'')
  end.

(** Modelled from the spec: the loop of [sdm_process]; drain the pending queue into the output,
    then consume one sample if output room is left; returns the new
    state, the number of samples consumed and the bits written. *)
Fixpoint process_loop (xs : list Smp) (room : nat) (s : sdm) : sdm * nat * list bool :=
  let '(o, room1, q) := emit room (pending s) in
  let s1 := set_pending s q in
  match xs, room1 with
  | x :: xs', S _ =>
      let '(s2, k, o2) := process_loop xs' room1 (sdm_step x s1) in
      (s2, S k, o ++ o2)
  | _, _ => (s1, O, o)
  end.

(** Modelled from the spec: [sdm_process(s, ibuf, obuf, ilen, olen)]; a [None] buffer is a null
    pointer; [obuf_ok] is false for a null output buffer.  On success the
    result carries the new [*ilen] (samples consumed), the new [*olen]
    (samples produced) and the samples written to [obuf]. *)
Definition sdm_process (s : sdm) (ibuf : option (list Z)) (obuf_ok : bool) (ilen olen : nat)
  : result (sdm * nat * nat * list Z) :=
  match ibuf with
  | None => Err InvalidArgument
  | Some buf =>
      if negb obuf_ok then Err InvalidArgument
      else if (olen =? 0) && (0 <? ilen) then Err InvalidArgument
      else
        let '(s', k, o) := process_loop (map smp_of_sample (firstn ilen buf)) olen s in
        Ok (s', k, length o, map out_sample o)
  end.

(** Modelled from the spec: one flush position; a pending bit first, otherwise the oldest
    undecided bit of the best path, trimmed from every path. *)
Definition flush_bit (s : sdm) : option (bool * sdm) :=
  match pending s with
  | b :: q => Some (b, set_pending s q)
  | [] =>
      match cands s with
      | best :: _ =>
          match p_bits best with
          | b :: _ => Some (b, set_cands s (map trim (cands s)))
          | [] => None
          end
      | [] => None
      end
  end.

(** Modelled from the spec: the loop of [sdm_drain]; once nothing is left the candidate set is
    released. *)
Fixpoint drain_loop (room : nat) (s : sdm) : sdm * list bool :=
  match room with
  | O => (s, [])
  | S r =>
      match flush_bit s with
      | Some (b, s') => let '(s'', o) := drain_loop r s' in (s'', b :: o)
      | None => (set_cands s [], [])
      end
  end.

(** Modelled from the spec: [sdm_drain(s, obuf, olen)]; the new [*olen] is the length of the output. *)
Definition sdm_drain (s : sdm) (obuf_ok : bool) (olen : nat) : result (sdm * list Z) :=
  if negb obuf_ok then Err InvalidArgument
  else let '(s', o) := drain_loop olen s in Ok (s', map out_sample o).

(** ** Packet-domain streaming API *)

(** Modelled from the spec: push bits into the accumulator; a byte is emitted when it holds 8. *)
Fixpoint pack (acc : Z) (n : nat) (bs : list bool) : list Z * Z * nat :=
  match bs with
  | [] => ([], acc, n)
  | b :: bs' =>
      let acc1 := push_bit acc b in
      if 8 <=? S n then let '(o, a, k) := pack 0 0 bs' in (acc1 :: o, a, k)
      else pack acc1 (S n) bs'
  end.

(** Modelled from the spec: [sdm_packet_process(p, inSamples, outPackets, inLength)]; every
    sample is consumed; the result is the new state and the bytes written
    (their number is the return value). *)
Fixpoint sdm_packet_process (s : sdm) (ds : list Smp) : sdm * list Z :=
  match ds with
  | [] => (s, [])
  | d :: ds' =>
      let s1 := sdm_step d s in
      let '(bytes, acc, n) := pack (packet s1) (packet_bits s1) (pending s1) in
      let '(s2, o) := sdm_packet_process (set_packet (set_pending s1 []) acc n) ds' in
      (s2, bytes ++ o)
  end.

(** Modelled from the spec: pull flush bits into the accumulator, at most [fuel] of them. *)
Fixpoint fill (fuel : nat) (s : sdm) (acc : Z) (n : nat) : sdm * Z * nat :=
  match fuel with
  | O => (s, acc, n)
  | S f =>
      match flush_bit s with
      | Some (b, s') => fill f s' (push_bit acc b) (S n)
      | None => (s, acc, n)
      end
  end.

(** Modelled from the spec: [sdm_packet_drain(p, outPackets, outBufSize)]; at most [outBufSize]
    bytes; on exhaustion a partial byte is padded with zero bits. *)
Fixpoint sdm_packet_drain (s : sdm) (room : nat) : sdm * list Z :=
  match room with
  | O => (s, [])
  | S r =>
      let '(s1, acc, n) := fill (8 - packet_bits s) s (packet s) (packet_bits s) in
      if 8 <=? n then
        let '(s2, o) := sdm_packet_drain (set_packet s1 0 0) r in (s2, acc :: o)
      else
        let s2 := set_packet (set_cands s1 []) 0 0 in
        if n =? 0 then (s2, []) else (s2, [Z.shiftl acc (Z.of_nat (8 - n))])
  end.

(** ** Callers *)

(** A caller of the sample-domain API: one [sdm_process] call per entry of
    [caps] (the output capacity), each passed the input not yet consumed.
    Returns the state, the samples written and the input left over. *)
Fixpoint feed (caps : list nat) (xs : list Z) (s : sdm) : option (sdm * list Z * list Z) :=
  match caps with
  | [] => Some (s, [], xs)
  | c :: cs =>
      match sdm_process s (Some xs) true (length xs) c with
      | Err _ => None
      | Ok (s', k, _, out) =>
          match feed cs (skipn k xs) s' with
          | Some (s'', o, rest) => Some (s'', out ++ o, rest)
          | None => None
          end
      end
  end.

(** [sdm_drain] called with the capacities [caps] until it reports zero
    output ([None]: it never did). *)
Fixpoint drain_all (caps : list nat) (s : sdm) : option (sdm * list Z) :=
  match caps with
  | [] => None
  | c :: cs =>
      match sdm_drain s true c with
      | Err _ => None
      | Ok (s', []) => Some (s', [])
      | Ok (s', out) =>
          match drain_all cs s' with
          | Some (s'', o) => Some (s'', out ++ o)
          | None => None
          end
      end
  end.

(** A complete sample-domain session: the whole stream consumed, then
    drained until [sdm_drain] reports zero. *)
Definition sample_session (s : sdm) (xs : list Z) (caps dcaps : list nat) : option (list Z) :=
  match feed caps xs s with
  | Some (s1, o1, []) =>
      match drain_all dcaps s1 with
      | Some (_, o2) => Some (o1 ++ o2)
      | None => None
      end
  | _ => None
  end.

Fixpoint packet_feed (chunks : list (list Smp)) (s : sdm) : sdm * list Z :=
  match chunks with
  | [] => (s, [])
  | ch :: chs =>
      let '(s1, o1) := sdm_packet_process s ch in
      let '(s2, o2) := packet_feed chs s1 in (s2, o1 ++ o2)
  end.

Fixpoint packet_drain_all (sizes : list nat) (s : sdm) : option (sdm * list Z) :=
  match sizes with
  | [] => None
  | c :: cs =>
      match sdm_packet_drain s c with
      | (s', []) => Some (s', [])
      | (s', out) =>
          match packet_drain_all cs s' with
          | Some (s'', o) => Some (s'', out ++ o)
          | None => None
          end
      end
  end.

(** A complete packet-domain session: the stream given in [chunks], then
    drained until [sdm_packet_drain] returns 0. *)
Definition packet_session (s : sdm) (chunks : list (list Smp)) (sizes : list nat)
  : option (list Z) :=
  let '(s1, o1) := packet_feed chunks s in
  match packet_drain_all sizes s1 with
  | Some (_, o2) => Some (o1 ++ o2)
  | None => None
  end.

(** States reachable from a successful [sdm_init] through the API. *)
Inductive reachable : sdm -> Prop :=
| reach_init name freq order num lat s :
    sdm_init name freq order num lat = Ok s -> reachable s
| reach_process s ibuf ilen olen s' k m out :
    reachable s -> sdm_process s ibuf true ilen olen = Ok (s', k, m, out) -> reachable s'
| reach_drain s olen s' out :
    reachable s -> sdm_drain s true olen = Ok (s', out) -> reachable s'
| reach_packet_process s ds s' out :
    reachable s -> sdm_packet_process s ds = (s', out) -> reachable s'
| reach_packet_drain s room s' out :
    reachable s -> sdm_packet_drain s room = (s', out) -> reachable s'.

(** ** Specification-side observations *)

(** Every bit the instance will still deliver if it is fed [xs] and then
    drained: the pending queue, then what the engine finalizes and
    flushes. *)
Definition future (s : sdm) (xs : list Smp) : list bool :=
  pending s ++ trellis_output (cfg s) (cands s) xs.

(** The bits held in the packet accumulator. *)
Definition acc_bits (s : sdm) : list bool := bits_of (packet_bits s) (packet s).

(** Number of zero bits that complete the last byte of a [len]-bit stream. *)
Definition zpad (len : nat) : nat := (8 - len mod 8) mod 8.

(** The engine invariant on a candidate set: at most [trellis_num] paths,
    all with the same number [k <= trellis_latency] of undecided bits. *)
Definition cands_ok (c : sdm_config) (cs : list path) : Prop :=
  length cs <= trellis_num c /\
  exists k, k <= trellis_latency c /\ Forall (fun p => length (p_bits p) = k) cs.

(** Bits a packet-domain instance still owes: the accumulator, then the
    pending queue and the engine's undecided suffix. *)
Definition rem_bits (s : sdm) : list bool := acc_bits s ++ future s [].

(** What the remaining packet drain emits: those bits, zero-padded to a
    whole byte. *)
Definition padded (s : sdm) : list bool := rem_bits s ++ repeat false (zpad (length (rem_bits s))).

(** Nothing left: no candidate, no pending bit, an empty accumulator. *)
Definition drained (s : sdm) : Prop := cands s = [] /\ pending s = [] /\ packet_bits s = 0.

End Trellis.

(** A first-order error-feedback loop (one integrator, full scale 4) as a
    concrete filter bank with a single filter, ["ef1"], used to run the
    development on concrete inputs. *)
Module Ef1.
Definition lookup (name : string) (freq : nat) : option Z :=
  if String.eqb name "ef1" then Some 1%Z else None.
Definition step (g : Z) (order : nat) (u : Z) (x : Z) (b : bool) : Z * Z :=
  let q := if b then 4%Z else (-4)%Z in
  let u' := (u + g * (x - q))%Z in (u', (u' * u')%Z).
#[export] Instance bank : FilterBank Z Z Z Z := {|
  fb_lookup := lookup;
  fb_state0 := fun _ _ => 0%Z;
  fb_step := step;
  cost_zero := 0%Z;
  cost_add := Z.add;
  cost_ltb := Z.ltb;
  smp_of_sample := fun x => x
|}.

(** The instance [sdm_init "ef1" 0 0 2 1] builds: beam width 2, latency 1. *)
Definition fresh : @sdm Z Z Z :=
  {| cfg := {| coefs := 1%Z; trellis_order := 0; trellis_num := 2; trellis_latency := 1 |};
     cands := [{| p_state := 0%Z; p_bits := []; p_cost := 0%Z |}];
     pending := []; packet := 0%Z; packet_bits := 0 |}.

(** A sample stream and a split of it into two packet chunks. *)
Definition stream : list Z := [5; -3; 2]%Z.
Definition chunks : list (list Z) := [[5; -3]; [2]]%Z.

(** The instance after [sdm_packet_process] of the samples 5 and -3. *)
Definition after2 : @sdm Z Z Z := fst (sdm_packet_process fresh [5; -3]%Z).

(** The instance [sdm_init "ef1" 0 0 0 0] builds: beam width 0. *)
Definition empty_beam : @sdm Z Z Z :=
  {| cfg := {| coefs := 1%Z; trellis_order := 0; trellis_num := 0; trellis_latency := 0 |};
     cands := []; pending := []; packet := 0%Z; packet_bits := 0 |}.
End Ef1.

Section Facts.

Context {Smp Coef FState Cost : Type} `{FB : FilterBank Smp Coef FState Cost}.

Local Abbreviation state := (@sdm Coef FState Cost).

Lemma emit_spec room q o r' q' :
  emit room q = (o, r', q') ->
  o ++ q' = q /\ length o + r' = room /\ (r' <> 0 -> q' = []) /\
  (length q <= room -> q' = []).
Proof.
  revert q o r' q'; induction room as [|room IH]; intros q o r' q' E.
  - simpl in E; inversion E; subst; simpl; repeat split; try lia.
    intros Hq; destruct q'; simpl in Hq; [reflexivity | lia].
  - destruct q as [|b q]; simpl in E.
    + inversion E; subst; simpl; repeat split; lia.
    + destruct (emit room q) as [[o1 r1] q1] eqn:E1; inversion E; subst.
      destruct (IH _ _ _ _ E1) as (H1 & H2 & H3 & H4).
      simpl; rewrite H1; repeat split; try lia; auto.
      intros Hq; apply H4; simpl in Hq; lia.
Qed.

Lemma trellis_output_cons c cs x xs :
  trellis_output c cs (x :: xs) =
  opt_bits (snd (trellis_step c x cs)) ++ trellis_output c (fst (trellis_step c x cs)) xs.
Proof.
  unfold trellis_output; simpl.
  destruct (trellis_step c x cs) as [cs1 ob]; simpl.
  destruct (trellis_run c xs cs1) as [cs2 fin]; simpl.
  now rewrite app_assoc.
Qed.

Lemma future_step x s xs : future (sdm_step x s) xs = future s (x :: xs).
Proof.
  unfold future, sdm_step; rewrite trellis_output_cons.
  destruct (trellis_step (cfg s) x (cands s)) as [cs ob]; simpl.
  now rewrite app_assoc.
Qed.

Lemma future_set_pending s q xs : future (set_pending s q) xs = q ++ trellis_output (cfg s) (cands s) xs.
Proof. reflexivity. Qed.

Lemma sdm_step_cfg x s : cfg (sdm_step x s) = cfg s.
Proof. unfold sdm_step; now destruct (trellis_step (cfg s) x (cands s)). Qed.

Lemma sdm_step_cands x s : cands (sdm_step x s) = fst (trellis_step (cfg s) x (cands s)).
Proof. unfold sdm_step; now destruct (trellis_step (cfg s) x (cands s)). Qed.

Lemma sdm_step_pending x s :
  pending (sdm_step x s) = pending s ++ opt_bits (snd (trellis_step (cfg s) x (cands s))).
Proof. unfold sdm_step; now destruct (trellis_step (cfg s) x (cands s)). Qed.

Lemma sdm_step_packet x s :
  packet (sdm_step x s) = packet s /\ packet_bits (sdm_step x s) = packet_bits s.
Proof. unfold sdm_step; now destruct (trellis_step (cfg s) x (cands s)). Qed.

Lemma opt_bits_length o : length (opt_bits o) <= 1.
Proof. destruct o; simpl; lia. Qed.

Lemma trellis_run_cons c x xs cs :
  trellis_run c (x :: xs) cs =
  (fst (trellis_run c xs (fst (trellis_step c x cs))),
   opt_bits (snd (trellis_step c x cs)) ++ snd (trellis_run c xs (fst (trellis_step c x cs)))).
Proof.
  simpl; destruct (trellis_step c x cs) as [cs1 ob]; simpl.
  now destruct (trellis_run c xs cs1).
Qed.

(** The loop of [sdm_process]. *)
Lemma process_loop_spec xs room s s' k o :
  process_loop xs room s = (s', k, o) ->
  cfg s' = cfg s /\ packet s' = packet s /\ packet_bits s' = packet_bits s /\
  k <= length xs /\ length o <= room /\
  (k < length xs -> length o = room) /\
  (length (pending s) <= room -> pending s' = []) /\
  cands s' = fst (trellis_run (cfg s) (firstn k xs) (cands s)) /\
  o ++ future s' (skipn k xs) = future s xs.
Proof.
  revert room s s' k o; induction xs as [|x xs IH]; intros room s s' k o E; simpl in E;
    destruct (emit room (pending s)) as [[o1 room1] q] eqn:Em;
    destruct (emit_spec _ _ _ _ _ Em) as (H1 & H2 & H3 & H4).
  - inversion E; subst; simpl; repeat split; try lia; auto.
    unfold future; simpl; rewrite app_assoc, H1; reflexivity.
  - destruct room1 as [|room1].
    + inversion E; subst; simpl; repeat split; try lia; auto.
      unfold future; simpl; rewrite app_assoc, H1; reflexivity.
    + destruct (process_loop xs (S room1) (sdm_step x (set_pending s q)))
        as [[s2 k2] o2] eqn:E2.
      inversion E; subst; clear E.
      specialize (H3 ltac:(discriminate)); subst q.
      destruct (IH _ _ _ _ _ E2) as (G1 & G2 & G3 & G4 & G5 & G6 & G7 & G8 & G9).
      rewrite sdm_step_cfg in G1, G8.
      destruct (sdm_step_packet x (set_pending s [])) as [P1 P2].
      rewrite P1 in G2; rewrite P2 in G3; simpl in G1, G2, G3, G8.
      split; [exact G1|]. split; [exact G2|]. split; [exact G3|].
      split; [simpl; lia|]. split; [rewrite length_app; lia|].
      split; [intros Hk; simpl in Hk; rewrite length_app, G6 by lia; lia|].
      split.
      { intros _; apply G7; rewrite sdm_step_pending; simpl;
        pose proof (opt_bits_length (snd (trellis_step (cfg s) x (cands s)))); lia. }
      split.
      { simpl firstn; rewrite trellis_run_cons, G8, sdm_step_cands; reflexivity. }
      simpl skipn; rewrite <- app_assoc, G9, future_step.
      unfold future; simpl; rewrite <- H1, app_nil_r; reflexivity.
Qed.

Lemma future_nil s : future s [] = pending s ++ flush_bits (cands s).
Proof. reflexivity. Qed.

Lemma flush_bits_trim (cs : list (@path FState Cost)) b bs :
  flush_bits cs = b :: bs -> flush_bits (map trim cs) = bs.
Proof. destruct cs as [|p cs]; simpl; [discriminate|]. intros ->; reflexivity. Qed.

Lemma flush_bit_some s b s' :
  flush_bit s = Some (b, s') ->
  b :: future s' [] = future s [] /\ cfg s' = cfg s /\ packet s' = packet s /\
  packet_bits s' = packet_bits s /\ (pending s = [] -> pending s' = []).
Proof.
  unfold flush_bit; rewrite !future_nil.
  destruct (pending s) as [|b0 q] eqn:Hp.
  - destruct (cands s) as [|best cs] eqn:Hc; [discriminate|].
    destruct (p_bits best) as [|b1 bs] eqn:Hb; [discriminate|].
    intros E; inversion E; subst; clear E; simpl.
    rewrite ?Hp, ?Hc; simpl; rewrite ?Hb; simpl.
    repeat split; auto.
  - intros E; inversion E; subst; simpl; rewrite ?Hp; repeat split; auto; discriminate.
Qed.

Lemma flush_bit_none (s : state) :
  flush_bit s = None -> pending s = [] /\ flush_bits (cands s) = [].
Proof.
  unfold flush_bit; destruct (pending s) as [|b q]; [|discriminate].
  destruct (cands s) as [|best cs]; [auto|].
  simpl; destruct (p_bits best); [auto|discriminate].
Qed.

(** The loop of [sdm_drain]. *)
Lemma drain_loop_spec room s s' o :
  drain_loop room s = (s', o) ->
  o ++ future s' [] = future s [] /\ length o <= room /\
  (length o < room -> pending s' = [] /\ cands s' = []) /\
  cfg s' = cfg s /\ packet s' = packet s /\ packet_bits s' = packet_bits s /\
  (pending s = [] -> pending s' = []).
Proof.
  revert s s' o; induction room as [|room IH]; intros s s' o E; simpl in E.
  - inversion E; subst; simpl; repeat split; auto; lia.
  - destruct (flush_bit s) as [[b s1]|] eqn:F.
    + destruct (drain_loop room s1) as [s2 o2] eqn:E2; inversion E; subst; clear E.
      destruct (flush_bit_some _ _ _ F) as (F1 & F2 & F3 & F4 & F5).
      destruct (IH _ _ _ E2) as (G1 & G2 & G3 & G4 & G5 & G6 & G7).
      split; [simpl; rewrite G1; exact F1|].
      split; [simpl; lia|].
      split; [intros Hl; apply G3; simpl in Hl; lia|].
      split; [congruence|]. split; [congruence|]. split; [congruence|].
      intros Hp; apply G7, F5, Hp.
    + inversion E; subst; clear E.
      destruct (flush_bit_none _ F) as [N1 N2].
      simpl; rewrite !future_nil; simpl; rewrite N1, N2; repeat split; auto; lia.
Qed.

Lemma drain_all_spec caps s s' o :
  Forall (fun c => 0 < c) caps ->
  drain_all caps s = Some (s', o) ->
  o = map out_sample (future s []) /\ pending s' = [] /\ cands s' = [] /\
  cfg s' = cfg s /\ packet s' = packet s /\ packet_bits s' = packet_bits s.
Proof.
  revert s s' o; induction caps as [|c caps IH]; intros s s' o Hc E; simpl in E;
    [discriminate|].
  inversion Hc as [|c' caps' Hc0 Hcs]; subst.
  unfold sdm_drain in E; simpl in E.
  destruct (drain_loop c s) as [s1 o1] eqn:D.
  destruct (drain_loop_spec _ _ _ _ D) as (D1 & D2 & D3 & D4 & D5 & D6 & D7).
  destruct o1 as [|b o1].
  - inversion E; subst; clear E.
    destruct (D3 ltac:(simpl; lia)) as [P C].
    rewrite <- D1, future_nil, P, C; simpl; repeat split; auto.
  - simpl in E.
    destruct (drain_all caps s1) as [[s2 o2]|] eqn:E2; [|discriminate].
    inversion E; subst; clear E.
    destruct (IH _ _ _ Hcs E2) as (G1 & G2 & G3 & G4 & G5 & G6).
    rewrite <- D1, G1, map_app; simpl; repeat split; auto; congruence.
Qed.

Lemma feed_spec caps xs s s1 o rest :
  feed caps xs s = Some (s1, o, rest) ->
  (exists bits, o = map out_sample bits /\
     bits ++ future s1 (map smp_of_sample rest) = future s (map smp_of_sample xs)) /\
  cfg s1 = cfg s /\ packet s1 = packet s /\ packet_bits s1 = packet_bits s /\
  (pending s = [] -> pending s1 = []).
Proof.
  revert xs s s1 o rest; induction caps as [|c caps IH]; intros xs s s1 o rest E;
    simpl in E.
  - inversion E; subst; repeat split; auto. exists []; split; reflexivity.
  - unfold sdm_process in E; simpl in E.
    destruct ((c =? 0) && (0 <? length xs)); [discriminate|].
    rewrite firstn_all in E.
    destruct (process_loop (map smp_of_sample xs) c s) as [[s2 k] o2] eqn:P.
    destruct (feed caps (skipn k xs) s2) as [[[s3 o3] r3]|] eqn:E2; [|discriminate].
    inversion E; subst; clear E.
    destruct (process_loop_spec _ _ _ _ _ _ P) as (P1 & P2 & P3 & P4 & P5 & P6 & P7 & P8 & P9).
    destruct (IH _ _ _ _ _ E2) as ((bits & B1 & B2) & G1 & G2 & G3 & G4).
    repeat split; try congruence.
    + exists (o2 ++ bits); split; [rewrite map_app, B1; reflexivity|].
      rewrite <- app_assoc, B2, <- skipn_map; exact P9.
    + intros Hp; apply G4, P7; rewrite Hp; simpl; lia.
Qed.

(** Output of a complete sample-domain session. *)
Lemma sample_session_spec s xs caps dcaps o :
  Forall (fun c => 0 < c) dcaps ->
  sample_session s xs caps dcaps = Some o ->
  o = map out_sample (future s (map smp_of_sample xs)).
Proof.
  unfold sample_session; intros Hd E.
  destruct (feed caps xs s) as [[[s1 o1] rest]|] eqn:F; [|discriminate].
  destruct rest; [|discriminate].
  destruct (drain_all dcaps s1) as [[s2 o2]|] eqn:D; [|discriminate].
  inversion E; subst; clear E.
  destruct (feed_spec _ _ _ _ _ _ F) as ((bits & B1 & B2) & _).
  destruct (drain_all_spec _ _ _ _ Hd D) as (D1 & _).
  rewrite B1, D1, <- map_app; simpl in B2; rewrite B2; reflexivity.
Qed.

(** ** Bit packing *)

Lemma bits_of_length n v : length (bits_of n v) = n.
Proof. induction n; simpl; auto. Qed.

Lemma unpack_app l1 l2 : unpack (l1 ++ l2) = unpack l1 ++ unpack l2.
Proof. unfold unpack; apply flat_map_app. Qed.

Lemma unpack_length l : length (unpack l) = 8 * length l.
Proof.
  induction l as [|x l IH]; [reflexivity|].
  change (unpack (x :: l)) with (bits_of 8 x ++ unpack l).
  rewrite length_app, bits_of_length, IH; simpl; lia.
Qed.

(** Shifting a value up by one and setting bit 0 appends that bit. *)
Lemma bits_of_succ n v w b :
  (forall i, i < n -> Z.testbit w (Z.of_nat (S i)) = Z.testbit v (Z.of_nat i)) ->
  Z.testbit w 0 = b ->
  bits_of (S n) w = bits_of n v ++ [b].
Proof.
  induction n as [|n IH]; intros Hs H0.
  - cbn [bits_of app]; change (Z.of_nat 0) with 0%Z; rewrite H0; reflexivity.
  - change (bits_of (S (S n)) w) with (Z.testbit w (Z.of_nat (S n)) :: bits_of (S n) w).
    rewrite (IH ltac:(intros; apply Hs; lia) H0).
    rewrite Hs by lia; reflexivity.
Qed.

Lemma bits_of_push n acc b : bits_of (S n) (push_bit acc b) = bits_of n acc ++ [b].
Proof.
  apply bits_of_succ.
  - intros i _; unfold push_bit.
    rewrite Z.lor_spec, Z.shiftl_spec by lia.
    replace (Z.of_nat (S i) - 1)%Z with (Z.of_nat i) by lia.
    assert (Hb : Z.testbit (Z.b2z b) (Z.of_nat (S i)) = false).
    { destruct b; [apply Z.bits_above_log2; simpl; lia | apply Z.testbit_0_l]. }
    rewrite Hb, orb_false_r; reflexivity.
  - unfold push_bit; rewrite Z.lor_spec, Z.shiftl_spec_low by lia.
    destruct b; reflexivity.
Qed.

(** Zero padding: shifting up by [j] appends [j] zero bits. *)
Lemma bits_of_shiftl n j a :
  bits_of (n + j) (Z.shiftl a (Z.of_nat j)) = bits_of n a ++ repeat false j.
Proof.
  induction j as [|j IH].
  - rewrite Nat.add_0_r, app_nil_r; change (Z.of_nat 0) with 0%Z;
    rewrite Z.shiftl_0_r; reflexivity.
  - replace (n + S j) with (S (n + j)) by lia.
    rewrite (bits_of_succ _ (Z.shiftl a (Z.of_nat j)) _ false).
    + rewrite IH, <- app_assoc; f_equal; symmetry; apply repeat_cons.
    + intros i _; rewrite !Z.shiftl_spec by lia; f_equal; lia.
    + apply Z.shiftl_spec_low; lia.
Qed.

Lemma pack_cons acc n b bs :
  pack acc n (b :: bs) =
  if 8 <=? S n then (let '(o, a, k) := pack 0 0 bs in (push_bit acc b :: o, a, k))
  else pack (push_bit acc b) (S n) bs.
Proof. reflexivity. Qed.

Lemma pack_spec bs acc n o a k :
  pack acc n bs = (o, a, k) -> n < 8 ->
  unpack o ++ bits_of k a = bits_of n acc ++ bs /\ k < 8 /\
  8 * length o + k = n + length bs.
Proof.
  revert acc n o a k; induction bs as [|b bs IH]; intros acc n o a k E Hn.
  - simpl in E; inversion E; subst; simpl; rewrite app_nil_r; repeat split; lia.
  - rewrite pack_cons in E; destruct (8 <=? S n) eqn:L.
    + apply Nat.leb_le in L; assert (n = 7) by lia; subst n.
      destruct (pack 0 0 bs) as [[o1 a1] k1] eqn:E1; inversion E; subst; clear E.
      destruct (IH _ _ _ _ _ E1 ltac:(lia)) as (G1 & G2 & G3).
      change (bits_of 0 0) with (@nil bool) in G1; rewrite app_nil_l in G1.
      split; [|cbn [length]; lia].
      change (unpack (push_bit acc b :: o1)) with (bits_of (S 7) (push_bit acc b) ++ unpack o1).
      rewrite bits_of_push, <- !app_assoc, G1; reflexivity.
    + apply Nat.leb_gt in L.
      destruct (IH _ _ _ _ _ E ltac:(lia)) as (G1 & G2 & G3).
      rewrite G1, bits_of_push, <- app_assoc; simpl; repeat split; lia.
Qed.

Lemma trellis_output_app c cs ds ys :
  trellis_output c cs (ds ++ ys) =
  snd (trellis_run c ds cs) ++ trellis_output c (fst (trellis_run c ds cs)) ys.
Proof.
  revert cs; induction ds as [|d ds IH]; intros cs; [reflexivity|].
  change ((d :: ds) ++ ys) with (d :: (ds ++ ys)).
  rewrite trellis_output_cons, IH, trellis_run_cons; simpl.
  now rewrite app_assoc.
Qed.

(** [sdm_packet_process]: every sample is consumed, every finalized bit
    goes through the accumulator. *)
Lemma packet_process_spec ds s s' o :
  sdm_packet_process s ds = (s', o) -> packet_bits s < 8 ->
  cfg s' = cfg s /\ packet_bits s' < 8 /\
  cands s' = fst (trellis_run (cfg s) ds (cands s)) /\
  unpack o ++ acc_bits s' ++ pending s' =
    acc_bits s ++ pending s ++ snd (trellis_run (cfg s) ds (cands s)) /\
  8 * length o + packet_bits s' + length (pending s') =
    packet_bits s + length (pending s) + length (snd (trellis_run (cfg s) ds (cands s))) /\
  (pending s = [] \/ ds <> [] -> pending s' = []).
Proof.
  revert s s' o; induction ds as [|d ds IH]; intros s s' o E Hn; simpl in E.
  - inversion E; subst; simpl; rewrite !app_nil_r; repeat split; try lia.
    intros [H|H]; [exact H|congruence].
  - destruct (pack (packet (sdm_step d s)) (packet_bits (sdm_step d s)) (pending (sdm_step d s)))
      as [[bytes acc] n] eqn:Pk.
    destruct (sdm_packet_process (set_packet (set_pending (sdm_step d s) []) acc n) ds)
      as [s3 o3] eqn:E3.
    inversion E; subst; clear E.
    destruct (sdm_step_packet d s) as [Q1 Q2].
    rewrite Q1, Q2, sdm_step_pending in Pk.
    destruct (pack_spec _ _ _ _ _ _ Pk Hn) as (K1 & K2 & K3).
    destruct (IH _ _ _ E3 K2) as (G1 & G2 & G3 & G4 & G5 & G6).
    simpl in G1, G3, G4, G5, G6; rewrite sdm_step_cfg in G1, G3, G4, G5.
    rewrite sdm_step_cands in G3, G4, G5.
    unfold acc_bits in G4 at 2; simpl in G4.
    rewrite length_app in K3.
    repeat split; try congruence.
    + rewrite trellis_run_cons; simpl; exact G3.
    + rewrite unpack_app, <- app_assoc, G4, trellis_run_cons; simpl.
      rewrite app_assoc, K1; unfold acc_bits; rewrite <- !app_assoc; reflexivity.
    + rewrite trellis_run_cons; simpl snd; rewrite length_app, length_app; lia.
    + intros _; apply G6; left; reflexivity.
Qed.

Lemma packet_feed_spec chunks s s1 o ys :
  packet_feed chunks s = (s1, o) -> packet_bits s < 8 ->
  cfg s1 = cfg s /\ packet_bits s1 < 8 /\
  unpack o ++ acc_bits s1 ++ future s1 ys = acc_bits s ++ future s (concat chunks ++ ys).
Proof.
  revert s s1 o; induction chunks as [|ch chs IH]; intros s s1 o E Hn; simpl in E.
  - inversion E; subst; repeat split; auto.
  - destruct (sdm_packet_process s ch) as [s2 o2] eqn:E2.
    destruct (packet_feed chs s2) as [s3 o3] eqn:E3.
    inversion E; subst; clear E.
    destruct (packet_process_spec _ _ _ _ E2 Hn) as (P1 & P2 & P3 & P4 & P5 & P6).
    destruct (IH _ _ _ E3 P2) as (G1 & G2 & G3).
    repeat split; try congruence.
    rewrite unpack_app, <- app_assoc, G3; simpl concat.
    unfold future at 1 2; rewrite <- app_assoc, (trellis_output_app (cfg s) (cands s) ch), P1, <- P3.
    rewrite (app_assoc (acc_bits s2)), (app_assoc (unpack o2)), P4, <- !app_assoc.
    reflexivity.
Qed.

(** ** Draining the packet API *)

Lemma zpad_add8 k L : zpad (8 * k + L) = zpad L.
Proof.
  unfold zpad; rewrite (Nat.add_comm (8 * k)), (Nat.mul_comm 8), Nat.Div0.mod_add.
  reflexivity.
Qed.

Lemma zpad_small m : 0 < m < 8 -> zpad m = 8 - m.
Proof. intros H; unfold zpad; rewrite (Nat.mod_small m), Nat.mod_small; lia. Qed.

Lemma rem_bits_drained (s : state) : drained s -> rem_bits s = [].
Proof.
  intros (C & P & K); unfold rem_bits, acc_bits; rewrite future_nil, C, P, K; reflexivity.
Qed.

Lemma fill_spec fuel s acc n s1 a m :
  fill fuel s acc n = (s1, a, m) ->
  bits_of m a ++ future s1 [] = bits_of n acc ++ future s [] /\ n <= m <= n + fuel /\
  (m < n + fuel -> pending s1 = [] /\ flush_bits (cands s1) = []) /\
  cfg s1 = cfg s /\ packet s1 = packet s /\ packet_bits s1 = packet_bits s /\
  (pending s = [] -> pending s1 = []).
Proof.
  revert s acc n s1 a m; induction fuel as [|f IH]; intros s acc n s1 a m E; simpl in E.
  - inversion E; subst; repeat split; auto; lia.
  - destruct (flush_bit s) as [[b s']|] eqn:F.
    + destruct (flush_bit_some _ _ _ F) as (F1 & F2 & F3 & F4 & F5).
      destruct (IH _ _ _ _ _ _ E) as (G1 & G2 & G3 & G4 & G5 & G6 & G7).
      split; [rewrite G1, bits_of_push, <- app_assoc; cbn [app]; rewrite F1; reflexivity|].
      split; [lia|]. split; [intros; apply G3; lia|].
      repeat split; try congruence. intros Hp; apply G7, F5, Hp.
    + inversion E; subst; clear E.
      destruct (flush_bit_none _ F) as [N1 N2].
      repeat split; auto; lia.
Qed.

Lemma unpack_pad m a :
  m <= 8 -> unpack [Z.shiftl a (Z.of_nat (8 - m))] = bits_of m a ++ repeat false (8 - m).
Proof.
  intros Hm.
  change (unpack [Z.shiftl a (Z.of_nat (8 - m))])
    with (bits_of 8 (Z.shiftl a (Z.of_nat (8 - m))) ++ []).
  rewrite app_nil_r.
  replace (bits_of 8) with (bits_of (m + (8 - m))) by (f_equal; lia).
  apply bits_of_shiftl.
Qed.

Lemma packet_drain_S (s : state) r :
  sdm_packet_drain s (S r) =
  let '(s1, acc, n) := fill (8 - packet_bits s) s (packet s) (packet_bits s) in
  if 8 <=? n then
    let '(s2, o) := sdm_packet_drain (set_packet s1 0 0) r in (s2, acc :: o)
  else
    let s2 := set_packet (set_cands s1 []) 0 0 in
    if n =? 0 then (s2, []) else (s2, [Z.shiftl acc (Z.of_nat (8 - n))]).
Proof. reflexivity. Qed.

Lemma packet_drain_spec room s s' o :
  sdm_packet_drain s room = (s', o) -> packet_bits s < 8 ->
  unpack o ++ padded s' = padded s /\ packet_bits s' < 8 /\ cfg s' = cfg s /\
  (pending s = [] -> pending s' = []) /\
  (drained s' \/ length (rem_bits s') <= length (rem_bits s)) /\
  (0 < room -> (o = [] -> drained s' /\ rem_bits s = []) /\
               (o <> [] -> drained s' \/ length (rem_bits s') < length (rem_bits s))).
Proof.
  revert s s' o; induction room as [|r IH]; intros s s' o E Hn.
  - simpl in E; inversion E; subst; repeat split; auto; lia.
  - rewrite packet_drain_S in E.
    destruct (fill (8 - packet_bits s) s (packet s) (packet_bits s)) as [[s1 a] m] eqn:F.
    destruct (fill_spec _ _ _ _ _ _ _ F) as (F1 & F2 & F3 & F4 & F5 & F6 & F7).
    fold (acc_bits s) in F1.
    destruct (8 <=? m) eqn:L.
    + apply Nat.leb_le in L; assert (m = 8) by lia; subst m.
      destruct (sdm_packet_drain (set_packet s1 0 0) r) as [s2 o2] eqn:E2.
      inversion E; subst; clear E.
      assert (R1 : rem_bits (set_packet s1 0 0) = future s1 []) by reflexivity.
      assert (R : rem_bits s = bits_of 8 a ++ rem_bits (set_packet s1 0 0))
        by (rewrite R1; unfold rem_bits; rewrite F1; reflexivity).
      assert (LR : length (rem_bits s) = 8 + length (rem_bits (set_packet s1 0 0)))
        by (rewrite R, length_app, bits_of_length; reflexivity).
      destruct (IH _ _ _ E2 ltac:(simpl; lia)) as (G1 & G2 & G3 & G4 & G5 & G6).
      simpl in G3, G4.
      split.
      { change (unpack (a :: o2)) with (bits_of 8 a ++ unpack o2).
        rewrite <- app_assoc, G1; unfold padded at 2; rewrite LR, R.
        replace (8 + length (rem_bits (set_packet s1 0 0)))
          with (8 * 1 + length (rem_bits (set_packet s1 0 0))) by lia.
        rewrite zpad_add8, <- app_assoc; reflexivity. }
      split; [exact G2|]. split; [congruence|].
      split; [intros Hp; apply G4, F7, Hp|].
      split; [destruct G5; [left; auto|right; lia]|].
      intros _; split; [discriminate|intros _; destruct G5; [left; auto|right; lia]].
    + apply Nat.leb_gt in L.
      destruct (F3 ltac:(lia)) as [P1 P2].
      assert (R : rem_bits s = bits_of m a)
        by (unfold rem_bits; rewrite <- F1, future_nil, P1, P2, !app_nil_r; reflexivity).
      assert (D : drained (set_packet (set_cands s1 []) 0 0))
        by (unfold drained; simpl; repeat split; auto).
      destruct (m =? 0) eqn:M.
      * apply Nat.eqb_eq in M; subst m; inversion E; subst; clear E.
        assert (R0 : rem_bits s = []) by (rewrite R; reflexivity).
        unfold padded; rewrite rem_bits_drained, R0 by exact D.
        split; [reflexivity|]. split; [simpl; lia|]. split; [simpl; congruence|].
        split; [intros _; exact P1|]. split; [left; exact D|].
        intros _; split; [intros _; split; [exact D|reflexivity]|congruence].
      * apply Nat.eqb_neq in M; injection E as E1 E2; subst s' o.
        unfold padded; rewrite rem_bits_drained by exact D.
        split.
        { rewrite R, bits_of_length, (zpad_small m) by lia.
          change (zpad (length (@nil bool))) with 0.
          change (repeat false 0) with (@nil bool); rewrite !app_nil_r.
          apply unpack_pad; lia. }
        split; [simpl; lia|]. split; [simpl; congruence|].
        split; [intros _; exact P1|]. split; [left; exact D|].
        intros _; split; [discriminate|intros _; left; exact D].
Qed.

Lemma packet_drain_all_spec sizes s s' o :
  Forall (fun c => 0 < c) sizes -> packet_bits s < 8 ->
  packet_drain_all sizes s = Some (s', o) ->
  unpack o = padded s /\ drained s' /\ cfg s' = cfg s.
Proof.
  revert s s' o; induction sizes as [|c cs IH]; intros s s' o Hc Hn E; simpl in E;
    [discriminate|].
  inversion Hc as [|c' cs' Hc0 Hcs]; subst.
  destruct (sdm_packet_drain s c) as [s1 o1] eqn:D.
  destruct (packet_drain_spec _ _ _ _ D Hn) as (D1 & D2 & D3 & D4 & D5 & D6).
  destruct (D6 Hc0) as [D7 D8].
  destruct o1 as [|x o1].
  - inversion E; subst; clear E.
    destruct (D7 eq_refl) as [Dr R].
    unfold padded; rewrite R; split; [reflexivity|split; [exact Dr|exact D3]].
  - destruct (packet_drain_all cs s1) as [[s2 o2]|] eqn:E2; [|discriminate].
    inversion E; subst; clear E.
    destruct (IH _ _ _ Hcs D2 E2) as (G1 & G2 & G3).
    change (x :: o1 ++ o2) with ((x :: o1) ++ o2).
    rewrite unpack_app, G1; split; [exact D1|split; [exact G2|congruence]].
Qed.

(** Output of a complete packet-domain session. *)
Lemma packet_session_spec s chunks sizes o :
  Forall (fun c => 0 < c) sizes -> packet_bits s < 8 ->
  packet_session s chunks sizes = Some o ->
  unpack o = (acc_bits s ++ future s (concat chunks)) ++
             repeat false (zpad (length (acc_bits s ++ future s (concat chunks)))).
Proof.
  unfold packet_session; intros Hs Hn E.
  destruct (packet_feed chunks s) as [s1 o1] eqn:F.
  destruct (packet_drain_all sizes s1) as [[s2 o2]|] eqn:D; [|discriminate].
  inversion E; subst; clear E.
  destruct (packet_feed_spec _ _ _ _ [] F Hn) as (F1 & F2 & F3).
  destruct (packet_drain_all_spec _ _ _ _ Hs F2 D) as (D1 & _).
  rewrite app_nil_r in F3.
  rewrite unpack_app, D1; unfold padded; fold (rem_bits s1) in F3.
  rewrite <- F3, length_app, unpack_length, zpad_add8, app_assoc; reflexivity.
Qed.

(** ** Termination of the drains *)

Lemma drain_all_terminates caps (s : state) :
  Forall (fun c => 0 < c) caps -> length (future s []) < length caps ->
  exists s' o, drain_all caps s = Some (s', o) /\ pending s' = [] /\ cands s' = [].
Proof.
  revert s; induction caps as [|c cs IH]; intros s Hc Hl; simpl in Hl; [lia|].
  inversion Hc as [|c' cs' Hc0 Hcs]; subst.
  simpl; unfold sdm_drain; simpl.
  destruct (drain_loop c s) as [s1 o1] eqn:D.
  destruct (drain_loop_spec _ _ _ _ D) as (D1 & D2 & D3 & _).
  destruct o1 as [|b o1].
  - destruct (D3 ltac:(simpl; lia)) as [P C].
    exists s1, []; auto.
  - assert (Hl1 : length (future s1 []) < length cs).
    { rewrite <- D1 in Hl; rewrite length_app in Hl; simpl in Hl; lia. }
    destruct (IH _ Hcs Hl1) as (s2 & o2 & E2 & P & C).
    simpl; rewrite E2; exists s2, (out_sample b :: map out_sample o1 ++ o2); auto.
Qed.

Lemma packet_drain_drained sizes (s : state) :
  Forall (fun c => 0 < c) sizes -> sizes <> [] -> drained s ->
  exists s', packet_drain_all sizes s = Some (s', []) /\ drained s'.
Proof.
  intros Hc Hne Hd; destruct sizes as [|c cs]; [congruence|].
  inversion Hc as [|c' cs' Hc0 Hcs]; subst.
  assert (Hn : packet_bits s < 8) by (destruct Hd as (_ & _ & K); lia).
  simpl; destruct (sdm_packet_drain s c) as [s1 o1] eqn:D.
  destruct (packet_drain_spec _ _ _ _ D Hn) as (D1 & D2 & D3 & D4 & D5 & D6).
  destruct (D6 Hc0) as [D7 D8].
  assert (o1 = []).
  { unfold padded in D1; rewrite (rem_bits_drained s Hd) in D1.
    apply (f_equal (@length bool)) in D1.
    rewrite length_app, unpack_length in D1; simpl in D1.
    destruct o1; [reflexivity|simpl in D1; lia]. }
  subst o1; exists s1; split; [reflexivity|apply (D7 eq_refl)].
Qed.

Lemma packet_drain_all_terminates sizes (s : state) :
  Forall (fun c => 0 < c) sizes -> packet_bits s < 8 ->
  length (rem_bits s) + 2 <= length sizes ->
  exists s' o, packet_drain_all sizes s = Some (s', o) /\ drained s'.
Proof.
  revert s; induction sizes as [|c cs IH]; intros s Hc Hn Hl; simpl in Hl; [lia|].
  inversion Hc as [|c' cs' Hc0 Hcs]; subst.
  simpl; destruct (sdm_packet_drain s c) as [s1 o1] eqn:D.
  destruct (packet_drain_spec _ _ _ _ D Hn) as (D1 & D2 & D3 & D4 & D5 & D6).
  destruct (D6 Hc0) as [D7 D8].
  destruct o1 as [|x o1].
  - exists s1, []; split; [reflexivity|apply (D7 eq_refl)].
  - destruct (D8 ltac:(discriminate)) as [Dd|Dl].
    + destruct (packet_drain_drained cs s1 Hcs ltac:(destruct cs; simpl in Hl; [lia|discriminate]) Dd)
        as (s2 & E2 & G).
      rewrite E2; exists s2, (x :: o1 ++ []); auto.
    + destruct (IH s1 Hcs D2 ltac:(lia)) as (s2 & o2 & E2 & G).
      rewrite E2; exists s2, (x :: o1 ++ o2); auto.
Qed.

(** ** Shape of the candidate set *)

Lemma insert_path_Forall (P : @path FState Cost -> Prop) p l :
  P p -> Forall P l -> Forall P (insert_path p l).
Proof.
  intros Hp; induction 1 as [|q l Hq Hl IH]; simpl; [constructor; auto|].
  destruct (cost_ltb (p_cost p) (p_cost q)); repeat constructor; auto.
Qed.

Lemma insert_path_length (p : @path FState Cost) l : length (insert_path p l) = S (length l).
Proof.
  induction l as [|q l IH]; simpl; [reflexivity|].
  destruct (cost_ltb (p_cost p) (p_cost q)); simpl; lia.
Qed.

Lemma sort_paths_Forall (P : @path FState Cost -> Prop) l :
  Forall P l -> Forall P (sort_paths l).
Proof.
  unfold sort_paths; intros Hl.
  assert (G : forall acc, Forall P acc -> Forall P (fold_left (fun acc p => insert_path p acc) l acc)).
  { induction Hl as [|p l Hp Hl IH]; intros acc Ha; simpl; auto.
    apply IH, insert_path_Forall; auto. }
  apply G; constructor.
Qed.

Lemma sort_paths_length (l : list (@path FState Cost)) : length (sort_paths l) = length l.
Proof.
  unfold sort_paths.
  assert (G : forall acc, length (fold_left (fun acc p => insert_path p acc) l acc) =
                          length acc + length l).
  { induction l as [|p l IH]; intros acc; simpl; [lia|].
    rewrite IH, insert_path_length; lia. }
  apply G.
Qed.

Lemma Forall_firstn_paths (P : @path FState Cost -> Prop) n l :
  Forall P l -> Forall P (firstn n l).
Proof.
  revert l; induction n as [|n IH]; intros l Hl; simpl; [constructor|].
  destruct Hl; constructor; auto.
Qed.

Lemma extend_bits c x p b : length (p_bits (extend c x p b)) = S (length (p_bits p)).
Proof.
  unfold extend; destruct (fb_step (coefs c) (trellis_order c) (p_state p) x b); simpl.
  rewrite length_app; simpl; lia.
Qed.

Lemma extend_all_Forall c x cs k :
  Forall (fun p => length (p_bits p) = k) cs ->
  Forall (fun p => length (p_bits p) = S k)
         (flat_map (fun p => [extend c x p false; extend c x p true]) cs).
Proof.
  induction 1 as [|p cs Hp Hcs IH]; simpl; [constructor|].
  repeat constructor; auto; rewrite extend_bits; lia.
Qed.

Lemma extend_all_length c x (cs : list (@path FState Cost)) :
  length (flat_map (fun p => [extend c x p false; extend c x p true]) cs) = 2 * length cs.
Proof. induction cs as [|p cs IH]; simpl; [reflexivity|]; rewrite IH; lia. Qed.

Lemma trim_Forall (cs : list (@path FState Cost)) k :
  Forall (fun p => length (p_bits p) = S k) cs ->
  Forall (fun p => length (p_bits p) = k) (map trim cs).
Proof.
  induction 1 as [|p cs Hp Hcs IH]; simpl; constructor; auto.
  simpl; destruct (p_bits p); simpl in *; lia.
Qed.

(** One extend, prune, finalize cycle on paths of [k] undecided bits. *)
Lemma trellis_step_shape c x cs k :
  Forall (fun p => length (p_bits p) = k) cs -> k <= trellis_latency c ->
  length (fst (trellis_step c x cs)) <= trellis_num c /\
  (cs <> [] -> 1 <= trellis_num c -> fst (trellis_step c x cs) <> []) /\
  ((fst (trellis_step c x cs) = [] /\ snd (trellis_step c x cs) = None) \/
   (Forall (fun p => length (p_bits p) = Nat.min (S k) (trellis_latency c))
           (fst (trellis_step c x cs)) /\
    length (opt_bits (snd (trellis_step c x cs))) = S k - Nat.min (S k) (trellis_latency c))).
Proof.
  intros Hk Hl; unfold trellis_step, prune.
  set (ext := flat_map (fun p => [extend c x p false; extend c x p true]) cs).
  assert (Fe : Forall (fun p => length (p_bits p) = S k) (firstn (trellis_num c) (sort_paths ext)))
    by (apply Forall_firstn_paths, sort_paths_Forall, extend_all_Forall, Hk).
  assert (Le : length (firstn (trellis_num c) (sort_paths ext)) <= trellis_num c)
    by (rewrite length_firstn; lia).
  assert (Ne : cs <> [] -> 1 <= trellis_num c -> firstn (trellis_num c) (sort_paths ext) <> []).
  { intros Hc Hn Hf; apply (f_equal (@length _)) in Hf.
    rewrite length_firstn, sort_paths_length in Hf; subst ext.
    rewrite extend_all_length in Hf; destruct cs; [congruence|simpl in Hf; lia]. }
  revert Fe Le Ne; generalize (firstn (trellis_num c) (sort_paths ext)); intros pr Fe Le Ne.
  unfold finalize; destruct pr as [|best rest] eqn:Hpr.
  - simpl; repeat split; auto.
  - inversion Fe as [|b0 r0 Hb Hr]; subst.
    destruct (p_bits best) as [|b bs] eqn:Hbits; [simpl in Hb; lia|].
    rewrite Hb.
    destruct (trellis_latency c <? S k) eqn:L.
    + apply Nat.ltb_lt in L; cbn [fst snd opt_bits length]; rewrite length_map.
      split; [exact Le|]. split; [discriminate|]. right.
      replace (Nat.min (S k) (trellis_latency c)) with k by lia.
      split; [|lia]. apply (trim_Forall (best :: rest)); exact Fe.
    + apply Nat.ltb_ge in L; cbn [fst snd opt_bits length].
      split; [exact Le|]. split; [intros; discriminate|]. right.
      replace (Nat.min (S k) (trellis_latency c)) with (S k) by lia.
      split; [exact Fe|lia].
Qed.

Lemma trellis_step_ok c x cs :
  cands_ok c cs -> cands_ok c (fst (trellis_step c x cs)).
Proof.
  intros (Hl & k & Hk & Hf).
  destruct (trellis_step_shape c x cs k Hf Hk) as (S1 & _ & [[E _]|[F _]]).
  - rewrite E; split; [simpl; lia|exists 0; split; [lia|constructor]].
  - split; [exact S1|exists (Nat.min (S k) (trellis_latency c)); split; [lia|exact F]].
Qed.

Lemma trellis_run_ok c xs cs :
  cands_ok c cs -> cands_ok c (fst (trellis_run c xs cs)).
Proof.
  revert cs; induction xs as [|x xs IH]; intros cs H; [exact H|].
  rewrite trellis_run_cons; simpl; apply IH, trellis_step_ok, H.
Qed.

(** With a beam of at least one path, every sample beyond the latency
    window finalizes exactly one bit. *)
Lemma trellis_run_shape c xs cs k :
  1 <= trellis_num c -> cs <> [] -> Forall (fun p => length (p_bits p) = k) cs ->
  k <= trellis_latency c ->
  fst (trellis_run c xs cs) <> [] /\
  Forall (fun p => length (p_bits p) = Nat.min (k + length xs) (trellis_latency c))
         (fst (trellis_run c xs cs)) /\
  length (snd (trellis_run c xs cs)) = k + length xs - Nat.min (k + length xs) (trellis_latency c).
Proof.
  revert cs k; induction xs as [|x xs IH]; intros cs k Hn Hc Hf Hk.
  - simpl; rewrite Nat.add_0_r, Nat.min_l by exact Hk; repeat split; auto; lia.
  - destruct (trellis_step_shape c x cs k Hf Hk) as (S1 & S2 & S3).
    specialize (S2 Hc Hn).
    destruct S3 as [[E _]|[F Lo]]; [contradiction|].
    destruct (IH _ _ Hn S2 F ltac:(lia)) as (G1 & G2 & G3).
    rewrite trellis_run_cons; simpl fst; simpl snd.
    replace (Nat.min (Nat.min (S k) (trellis_latency c) + length xs) (trellis_latency c))
      with (Nat.min (k + length (x :: xs)) (trellis_latency c)) in G2, G3 by (cbn [length]; lia).
    split; [exact G1|]. split; [exact G2|].
    rewrite length_app, G3, Lo; cbn [length]; lia.
Qed.

Lemma trellis_run_nil c xs : trellis_run c xs [] = ([], []).
Proof.
  induction xs as [|x xs IH]; [reflexivity|].
  rewrite trellis_run_cons.
  assert (E : trellis_step c x [] = ([], None)).
  { unfold trellis_step, prune; simpl; destruct (trellis_num c); reflexivity. }
  rewrite E; simpl; rewrite IH; reflexivity.
Qed.

Lemma cands_ok_nil (c : @sdm_config Coef) : cands_ok c (@nil (@path FState Cost)).
Proof. split; [simpl; lia|exists 0; split; [lia|constructor]]. Qed.

Lemma flush_bit_ok (s : state) b s' :
  flush_bit s = Some (b, s') -> cands_ok (cfg s) (cands s) -> cands_ok (cfg s') (cands s').
Proof.
  unfold flush_bit; destruct (pending s) as [|b0 q].
  - destruct (cands s) as [|best cs] eqn:Hc; [discriminate|].
    destruct (p_bits best) as [|b1 bs] eqn:Hb; [discriminate|].
    intros E; injection E as E1 E2; subst s'; unfold set_cands; cbn [cfg cands].
    intros (Hl & k & Hk & Hf).
    pose proof (Forall_inv Hf) as Hbest; cbn beta in Hbest.
    rewrite Hb in Hbest; simpl in Hbest.
    change (cands_ok (cfg s) (map trim (best :: cs))).
    split; [rewrite length_map; exact Hl|].
    exists (length bs); split; [lia|].
    apply trim_Forall; rewrite Hbest; exact Hf.
  - intros E; injection E as E1 E2; subst s'; simpl; auto.
Qed.

Lemma drain_loop_ok room (s : state) s' o :
  drain_loop room s = (s', o) -> cands_ok (cfg s) (cands s) -> cands_ok (cfg s') (cands s').
Proof.
  revert s s' o; induction room as [|room IH]; intros s s' o E Hs; simpl in E.
  - injection E as E1 E2; subst; exact Hs.
  - destruct (flush_bit s) as [[b s1]|] eqn:F.
    + destruct (drain_loop room s1) as [s2 o2] eqn:E2; injection E as E3 E4; subst.
      apply (IH _ _ _ E2), (flush_bit_ok _ _ _ F Hs).
    + injection E as E3 E4; subst; apply cands_ok_nil.
Qed.

Lemma fill_ok fuel (s : state) acc n s1 a m :
  fill fuel s acc n = (s1, a, m) -> cands_ok (cfg s) (cands s) -> cands_ok (cfg s1) (cands s1).
Proof.
  revert s acc n; induction fuel as [|f IH]; intros s acc n E Hs; simpl in E.
  - injection E as E1 E2 E3; subst; exact Hs.
  - destruct (flush_bit s) as [[b s']|] eqn:F.
    + apply (IH _ _ _ E), (flush_bit_ok _ _ _ F Hs).
    + injection E as E1 E2 E3; subst; exact Hs.
Qed.

Lemma packet_drain_ok room (s : state) s' o :
  sdm_packet_drain s room = (s', o) -> cands_ok (cfg s) (cands s) -> cands_ok (cfg s') (cands s').
Proof.
  revert s s' o; induction room as [|r IH]; intros s s' o E Hs.
  - simpl in E; injection E as E1 E2; subst; exact Hs.
  - rewrite packet_drain_S in E.
    destruct (fill (8 - packet_bits s) s (packet s) (packet_bits s)) as [[s1 a] m] eqn:F.
    pose proof (fill_ok _ _ _ _ _ _ _ F Hs) as Hs1.
    destruct (8 <=? m).
    + destruct (sdm_packet_drain (set_packet s1 0 0) r) as [s2 o2] eqn:E2.
      injection E as E3 E4; subst.
      apply (IH _ _ _ E2); exact Hs1.
    + destruct (m =? 0); injection E as E3 E4; subst; apply cands_ok_nil.
Qed.

(** Invariant of every reachable instance. *)
Lemma reachable_inv (s : state) :
  reachable s -> pending s = [] /\ packet_bits s < 8 /\ cands_ok (cfg s) (cands s).
Proof.
  induction 1 as [name freq order num lat s E
                 |s ibuf ilen olen s' k m out Hr IH E
                 |s olen s' out Hr IH E
                 |s ds s' out Hr IH E
                 |s room s' out Hr IH E].
  - unfold sdm_init in E.
    destruct (fb_lookup name freq) as [c|]; [|discriminate].
    destruct (SDM_TRELLIS_MAX_ORDER <? order); [discriminate|].
    destruct (SDM_TRELLIS_MAX_NUM <? num); [discriminate|].
    destruct (SDM_TRELLIS_MAX_LAT <? lat); [discriminate|].
    injection E as E; subst s; simpl.
    split; [reflexivity|]. split; [lia|].
    split; [rewrite length_firstn; simpl; lia|].
    exists 0; split; [lia|].
    apply Forall_firstn_paths; repeat constructor.
  - destruct IH as (I1 & I2 & I3).
    unfold sdm_process in E; destruct ibuf as [buf|]; [|discriminate].
    cbn [negb] in E.
    destruct ((olen =? 0) && (0 <? ilen)); [discriminate|].
    destruct (process_loop (map smp_of_sample (firstn ilen buf)) olen s) as [[s1 k1] o1] eqn:P.
    injection E as E1 E2 E3 E4; subst.
    destruct (process_loop_spec _ _ _ _ _ _ P) as (G1 & G2 & G3 & G4 & G5 & G6 & G7 & G8 & G9).
    split; [apply G7; rewrite I1; simpl; lia|].
    split; [lia|].
    rewrite G1, G8; apply trellis_run_ok, I3.
  - destruct IH as (I1 & I2 & I3).
    unfold sdm_drain in E; cbn [negb] in E.
    destruct (drain_loop olen s) as [s1 o1] eqn:D; injection E as E1 E2; subst.
    destruct (drain_loop_spec _ _ _ _ D) as (G1 & G2 & G3 & G4 & G5 & G6 & G7).
    split; [apply G7, I1|]. split; [lia|].
    apply (drain_loop_ok _ _ _ _ D I3).
  - destruct IH as (I1 & I2 & I3).
    destruct (packet_process_spec _ _ _ _ E I2) as (G1 & G2 & G3 & G4 & G5 & G6).
    split; [apply G6; left; exact I1|]. split; [exact G2|].
    rewrite G1, G3; apply trellis_run_ok, I3.
  - destruct IH as (I1 & I2 & I3).
    destruct (packet_drain_spec _ _ _ _ E I2) as (G1 & G2 & G3 & G4 & G5 & G6).
    split; [apply G4, I1|]. split; [exact G2|].
    apply (packet_drain_ok _ _ _ _ E I3).
Qed.

(** ** Range of the packed bytes *)

Definition byte_range (v : Z) : Prop := (0 <= v < 256)%Z.

Lemma push_bit_val acc b : push_bit acc b = (2 * acc + Z.b2z b)%Z.
Proof.
  unfold push_bit; rewrite Z.shiftl_mul_pow2 by lia.
  replace (acc * 2 ^ 1)%Z with (2 * acc)%Z by lia.
  apply Z.bits_inj'; intros i Hi; rewrite Z.lor_spec.
  destruct (Z.eq_dec i 0) as [->|Ne].
  - destruct b; simpl Z.b2z; rewrite ?Z.add_0_r, ?Z.testbit_0_l, ?orb_false_r;
      rewrite ?Z.testbit_odd_0, ?Z.testbit_even_0; reflexivity.
  - replace i with (Z.succ (i - 1)) by lia.
    assert (Hb : Z.testbit (Z.b2z b) (Z.succ (i - 1)) = false).
    { destruct b; [apply Z.bits_above_log2; simpl; lia | apply Z.testbit_0_l]. }
    rewrite Hb, orb_false_r.
    destruct b; simpl Z.b2z;
      [rewrite Z.testbit_odd_succ, Z.testbit_even_succ by lia
      |rewrite Z.add_0_r]; reflexivity.
Qed.

Lemma push_bit_range acc b n :
  (0 <= acc < 2 ^ Z.of_nat n)%Z -> (0 <= push_bit acc b < 2 ^ Z.of_nat (S n))%Z.
Proof.
  rewrite push_bit_val, Nat2Z.inj_succ, Z.pow_succ_r by lia.
  destruct b; simpl Z.b2z; lia.
Qed.

Lemma pack_range bs acc n o a k :
  pack acc n bs = (o, a, k) -> n < 8 -> (0 <= acc < 2 ^ Z.of_nat n)%Z ->
  Forall byte_range o /\ (0 <= a < 2 ^ Z.of_nat k)%Z.
Proof.
  revert acc n o a k; induction bs as [|b bs IH]; intros acc n o a k E Hn Ha.
  - simpl in E; injection E as E1 E2 E3; subst; split; [constructor|exact Ha].
  - rewrite pack_cons in E; destruct (8 <=? S n) eqn:L.
    + apply Nat.leb_le in L; assert (n = 7) by lia; subst n.
      destruct (pack 0 0 bs) as [[o1 a1] k1] eqn:E1; injection E as E2 E3 E4; subst.
      destruct (IH _ _ _ _ _ E1 ltac:(lia) ltac:(simpl; lia)) as [G1 G2].
      split; [constructor; [|exact G1]|exact G2].
      pose proof (push_bit_range acc b 7 Ha) as R; unfold byte_range; simpl in R; lia.
    + apply Nat.leb_gt in L.
      apply (IH _ _ _ _ _ E ltac:(lia)), push_bit_range, Ha.
Qed.

Lemma packet_process_range ds (s : state) s' o :
  sdm_packet_process s ds = (s', o) -> packet_bits s < 8 ->
  (0 <= packet s < 2 ^ Z.of_nat (packet_bits s))%Z ->
  Forall byte_range o /\ (0 <= packet s' < 2 ^ Z.of_nat (packet_bits s'))%Z.
Proof.
  revert s s' o; induction ds as [|d ds IH]; intros s s' o E Hn Ha; simpl in E.
  - injection E as E1 E2; subst; split; [constructor|exact Ha].
  - destruct (pack (packet (sdm_step d s)) (packet_bits (sdm_step d s)) (pending (sdm_step d s)))
      as [[bytes acc] n] eqn:Pk.
    destruct (sdm_packet_process (set_packet (set_pending (sdm_step d s) []) acc n) ds)
      as [s3 o3] eqn:E3.
    injection E as E1 E2; subst.
    destruct (sdm_step_packet d s) as [Q1 Q2].
    rewrite Q1, Q2 in Pk.
    destruct (pack_range _ _ _ _ _ _ Pk Hn Ha) as [R1 R2].
    destruct (pack_spec _ _ _ _ _ _ Pk Hn) as (_ & K2 & _).
    destruct (IH _ _ _ E3 K2 R2) as [G1 G2].
    split; [apply Forall_app; split; assumption|exact G2].
Qed.

Lemma packet_feed_range chunks (s : state) s' o :
  packet_feed chunks s = (s', o) -> packet_bits s < 8 ->
  (0 <= packet s < 2 ^ Z.of_nat (packet_bits s))%Z ->
  Forall byte_range o /\ packet_bits s' < 8 /\
  (0 <= packet s' < 2 ^ Z.of_nat (packet_bits s'))%Z.
Proof.
  revert s s' o; induction chunks as [|ch chs IH]; intros s s' o E Hn Ha; simpl in E.
  - injection E as E1 E2; subst; split; [constructor|split; assumption].
  - destruct (sdm_packet_process s ch) as [s1 o1] eqn:E1.
    destruct (packet_feed chs s1) as [s2 o2] eqn:E2.
    injection E as E3 E4; subst.
    destruct (packet_process_range _ _ _ _ E1 Hn Ha) as [R1 R2].
    destruct (packet_process_spec _ _ _ _ E1 Hn) as (_ & K2 & _).
    destruct (IH _ _ _ E2 K2 R2) as (G1 & G2 & G3).
    split; [apply Forall_app; split; assumption|split; assumption].
Qed.

Lemma fill_range fuel (s : state) acc n s1 a m :
  fill fuel s acc n = (s1, a, m) -> (0 <= acc < 2 ^ Z.of_nat n)%Z ->
  (0 <= a < 2 ^ Z.of_nat m)%Z.
Proof.
  revert s acc n; induction fuel as [|f IH]; intros s acc n E Ha; simpl in E.
  - injection E as E1 E2 E3; subst; exact Ha.
  - destruct (flush_bit s) as [[b s']|] eqn:F.
    + apply (IH _ _ _ E), push_bit_range, Ha.
    + injection E as E1 E2 E3; subst; exact Ha.
Qed.

Lemma pad_byte_range a m :
  m < 8 -> (0 <= a < 2 ^ Z.of_nat m)%Z -> byte_range (Z.shiftl a (Z.of_nat (8 - m))).
Proof.
  intros L Ra; unfold byte_range; rewrite Z.shiftl_mul_pow2 by lia.
  assert (P : (2 ^ Z.of_nat m * 2 ^ Z.of_nat (8 - m) = 256)%Z).
  { rewrite <- Z.pow_add_r by lia; replace (Z.of_nat m + Z.of_nat (8 - m))%Z with 8%Z by lia;
    reflexivity. }
  assert (Q : (0 < 2 ^ Z.of_nat (8 - m))%Z) by (apply Z.pow_pos_nonneg; lia).
  revert Ra P Q; generalize (2 ^ Z.of_nat (8 - m))%Z (2 ^ Z.of_nat m)%Z; intros Y X; nia.
Qed.

Lemma packet_drain_range room (s : state) s' o :
  sdm_packet_drain s room = (s', o) -> packet_bits s < 8 ->
  (0 <= packet s < 2 ^ Z.of_nat (packet_bits s))%Z ->
  Forall byte_range o /\ (0 <= packet s' < 2 ^ Z.of_nat (packet_bits s'))%Z.
Proof.
  revert s s' o; induction room as [|r IH]; intros s s' o E Hn Ha.
  - simpl in E; injection E as E1 E2; subst; split; [constructor|exact Ha].
  - rewrite packet_drain_S in E.
    destruct (fill (8 - packet_bits s) s (packet s) (packet_bits s)) as [[s1 a] m] eqn:F.
    pose proof (fill_range _ _ _ _ _ _ _ F Ha) as Ra.
    destruct (fill_spec _ _ _ _ _ _ _ F) as (_ & F2 & _).
    destruct (8 <=? m) eqn:L.
    + apply Nat.leb_le in L; assert (m = 8) by lia; subst m.
      destruct (sdm_packet_drain (set_packet s1 0 0) r) as [s2 o2] eqn:E2.
      injection E as E3 E4; subst.
      destruct (IH _ _ _ E2 ltac:(simpl; lia) ltac:(simpl; lia)) as [G1 G2].
      split; [constructor; [unfold byte_range; simpl in Ra; lia|exact G1]|exact G2].
    + apply Nat.leb_gt in L.
      pose proof (pad_byte_range a m L Ra) as Rp.
      revert E Rp; generalize (Z.shiftl a (Z.of_nat (8 - m))) as z; intros z E Rp.
      destruct (m =? 0); injection E as E3 E4; subst; (split; [|simpl; lia]).
      * constructor.
      * constructor; [exact Rp|constructor].
Qed.

Lemma packet_drain_all_range sizes (s : state) s' o :
  packet_drain_all sizes s = Some (s', o) -> packet_bits s < 8 ->
  (0 <= packet s < 2 ^ Z.of_nat (packet_bits s))%Z ->
  Forall byte_range o.
Proof.
  revert s s' o; induction sizes as [|c cs IH]; intros s s' o E Hn Ha; simpl in E;
    [discriminate|].
  destruct (sdm_packet_drain s c) as [s1 o1] eqn:D.
  destruct (packet_drain_range _ _ _ _ D Hn Ha) as [R1 R2].
  destruct (packet_drain_spec _ _ _ _ D Hn) as (_ & D2 & _).
  destruct o1 as [|x o1].
  - injection E as E1 E2; subst; constructor.
  - destruct (packet_drain_all cs s1) as [[s2 o2]|] eqn:E2; [|discriminate].
    injection E as E3 E4; subst.
    change (Forall byte_range ((x :: o1) ++ o2)).
    apply Forall_app; split; [exact R1|apply (IH _ _ _ E2 D2 R2)].
Qed.

Lemma packet_session_range (s : state) chunks sizes o :
  packet_session s chunks sizes = Some o -> packet_bits s < 8 ->
  (0 <= packet s < 2 ^ Z.of_nat (packet_bits s))%Z ->
  Forall byte_range o.
Proof.
  unfold packet_session; intros E Hn Ha.
  destruct (packet_feed chunks s) as [s1 o1] eqn:F.
  destruct (packet_drain_all sizes s1) as [[s2 o2]|] eqn:D; [|discriminate].
  injection E as E; subst.
  destruct (packet_feed_range _ _ _ _ F Hn Ha) as (G1 & G2 & G3).
  apply Forall_app; split; [exact G1|apply (packet_drain_all_range _ _ _ _ D G2 G3)].
Qed.

Lemma bits_of_testbit n a b :
  bits_of n a = bits_of n b -> forall i, i < n -> Z.testbit a (Z.of_nat i) = Z.testbit b (Z.of_nat i).
Proof.
  induction n as [|n IH]; intros E i Hi; [lia|].
  change (bits_of (S n) a) with (Z.testbit a (Z.of_nat n) :: bits_of n a) in E.
  change (bits_of (S n) b) with (Z.testbit b (Z.of_nat n) :: bits_of n b) in E.
  injection E as E1 E2.
  destruct (Nat.eq_dec i n) as [->|Ne]; [exact E1|apply IH; [exact E2|lia]].
Qed.

Lemma bits_of_inj n a b :
  (0 <= a < 2 ^ Z.of_nat n)%Z -> (0 <= b < 2 ^ Z.of_nat n)%Z ->
  bits_of n a = bits_of n b -> a = b.
Proof.
  intros Ha Hb E.
  rewrite <- (Z.mod_small a (2 ^ Z.of_nat n)) by lia.
  rewrite <- (Z.mod_small b (2 ^ Z.of_nat n)) by lia.
  apply Z.bits_inj'; intros i Hi.
  destruct (Z.lt_ge_cases i (Z.of_nat n)) as [L|L].
  - rewrite !Z.mod_pow2_bits_low by exact L.
    replace i with (Z.of_nat (Z.to_nat i)) by lia.
    apply (bits_of_testbit n); [exact E|lia].
  - rewrite !Z.mod_pow2_bits_high by lia; reflexivity.
Qed.

Lemma app_same_length (a1 a2 b1 b2 : list bool) :
  length a1 = length a2 -> a1 ++ b1 = a2 ++ b2 -> a1 = a2 /\ b1 = b2.
Proof.
  revert a2; induction a1 as [|x a1 IH]; intros [|y a2] L E; simpl in *; try discriminate.
  - split; [reflexivity|exact E].
  - injection E as E1 E2; subst y.
    destruct (IH a2 ltac:(lia) E2) as [-> ->]; split; reflexivity.
Qed.

Lemma unpack_inj o1 o2 :
  Forall byte_range o1 -> Forall byte_range o2 -> unpack o1 = unpack o2 -> o1 = o2.
Proof.
  intros H1; revert o2; induction H1 as [|x o1 Hx H1 IH]; intros o2 H2 E.
  - destruct o2 as [|y o2]; [reflexivity|].
    apply (f_equal (@length bool)) in E; rewrite !unpack_length in E; simpl in E; lia.
  - destruct H2 as [|y o2 Hy H2].
    + apply (f_equal (@length bool)) in E; rewrite !unpack_length in E; simpl in E; lia.
    + change (unpack (x :: o1)) with (bits_of 8 x ++ unpack o1) in E.
      change (unpack (y :: o2)) with (bits_of 8 y ++ unpack o2) in E.
      apply app_same_length in E; [|rewrite !bits_of_length; reflexivity].
      destruct E as [E1 E2]; f_equal; [|apply IH; assumption].
      apply (bits_of_inj 8); [unfold byte_range in Hx; simpl; lia|unfold byte_range in Hy; simpl; lia|exact E1].
Qed.

(** ** Fresh instances *)

Lemma trellis_run_app c a b cs :
  trellis_run c (a ++ b) cs =
  (fst (trellis_run c b (fst (trellis_run c a cs))),
   snd (trellis_run c a cs) ++ snd (trellis_run c b (fst (trellis_run c a cs)))).
Proof.
  revert cs; induction a as [|x a IH]; intros cs; [simpl; destruct (trellis_run c b cs); reflexivity|].
  rewrite <- app_comm_cons, !trellis_run_cons, IH; simpl; rewrite app_assoc; reflexivity.
Qed.

Lemma trellis_output_eq c cs xs :
  trellis_output c cs xs = snd (trellis_run c xs cs) ++ flush_bits (fst (trellis_run c xs cs)).
Proof. unfold trellis_output; destruct (trellis_run c xs cs); reflexivity. Qed.

Lemma flush_bits_length (cs : list (@path FState Cost)) k :
  cs <> [] -> Forall (fun p => length (p_bits p) = k) cs -> length (flush_bits cs) = k.
Proof. intros Hc Hf; destruct Hf as [|p cs Hp _]; [congruence|exact Hp]. Qed.

Lemma sdm_init_spec name freq order num lat (s : state) :
  sdm_init name freq order num lat = Ok s ->
  pending s = [] /\ packet s = 0%Z /\ packet_bits s = 0 /\
  trellis_num (cfg s) = num /\ trellis_latency (cfg s) = lat /\
  ((num = 0 /\ cands s = []) \/
   (1 <= num /\ cands s <> [] /\ Forall (fun p => length (p_bits p) = 0) (cands s))).
Proof.
  unfold sdm_init; intros E.
  destruct (fb_lookup name freq) as [c|]; [|discriminate].
  destruct (SDM_TRELLIS_MAX_ORDER <? order); [discriminate|].
  destruct (SDM_TRELLIS_MAX_NUM <? num); [discriminate|].
  destruct (SDM_TRELLIS_MAX_LAT <? lat); [discriminate|].
  injection E as E; subst s; cbn [pending packet packet_bits cfg cands trellis_num trellis_latency].
  split; [reflexivity|]. split; [reflexivity|]. split; [reflexivity|].
  split; [reflexivity|]. split; [reflexivity|].
  destruct num as [|num]; [left; split; reflexivity|right].
  simpl; split; [lia|]. split; [discriminate|]. rewrite firstn_nil; repeat constructor.
Qed.

(** On a fresh instance the first [n] bits delivered for a stream are the
    bits finalized while processing its first [n + trellis_latency] samples. *)
Lemma fresh_prefix name freq order num lat (s : state) xs n :
  sdm_init name freq order num lat = Ok s -> n + lat <= length xs ->
  firstn n (snd (trellis_run (cfg s) xs (cands s))) =
    snd (trellis_run (cfg s) (firstn (n + lat) xs) (cands s)) /\
  firstn n (future s xs) = snd (trellis_run (cfg s) (firstn (n + lat) xs) (cands s)).
Proof.
  intros E L.
  destruct (sdm_init_spec _ _ _ _ _ _ E) as (I1 & _ & _ & I4 & I5 & [[_ I6]|(I6 & I7 & I8)]).
  - unfold future; rewrite I1, I6, trellis_output_eq, !trellis_run_nil; simpl.
    split; apply firstn_nil.
  - rewrite <- (firstn_skipn (n + lat) xs) at 1 3.
    unfold future; rewrite I1, app_nil_l, trellis_output_eq, trellis_run_app; simpl fst; simpl snd.
    assert (Hl : length (snd (trellis_run (cfg s) (firstn (n + lat) xs) (cands s))) = n).
    { destruct (trellis_run_shape (cfg s) (firstn (n + lat) xs) (cands s) 0 ltac:(lia) I7 I8
                  ltac:(lia)) as (_ & _ & G).
      rewrite G, length_firstn, I5; lia. }
    revert Hl; generalize (snd (trellis_run (cfg s) (firstn (n + lat) xs) (cands s))); intros l Hl.
    rewrite <- app_assoc, !firstn_app, Hl, Nat.sub_diag, !firstn_O, !app_nil_r.
    rewrite <- Hl, firstn_all; split; reflexivity.
Qed.

(** With a beam of at least one path, a fresh instance delivers exactly one
    bit per input sample. *)
Lemma fresh_future_length name freq order num lat (s : state) xs :
  sdm_init name freq order num lat = Ok s -> 1 <= num -> length (future s xs) = length xs.
Proof.
  intros E Hn.
  destruct (sdm_init_spec _ _ _ _ _ _ E) as (I1 & _ & _ & I4 & I5 & [[I6 _]|(_ & I7 & I8)]); [lia|].
  unfold future; rewrite I1, app_nil_l, trellis_output_eq, length_app.
  destruct (trellis_run_shape (cfg s) xs (cands s) 0 ltac:(lia) I7 I8 ltac:(lia)) as (G1 & G2 & G3).
  rewrite G3, (flush_bits_length _ _ G1 G2); lia.
Qed.

Lemma sample_bit_out l : map sample_bit (map out_sample l) = l.
Proof. induction l as [|b l IH]; [reflexivity|]; simpl; rewrite IH; destruct b; reflexivity. Qed.

Lemma trellis_run_fin_length c xs (cs : list (@path FState Cost)) :
  length (snd (trellis_run c xs cs)) <= length xs.
Proof.
  revert cs; induction xs as [|x xs IH]; intros cs; [simpl; lia|].
  rewrite trellis_run_cons; simpl snd; rewrite length_app.
  pose proof (opt_bits_length (snd (trellis_step c x cs))); specialize (IH (fst (trellis_step c x cs)));
  simpl; lia.
Qed.

End Facts.

(** * The specification's claims *)

Section Claims.
Context {Smp Coef FState Cost : Type} `{FB : FilterBank Smp Coef FState Cost}.
Local Abbreviation state := (@sdm Coef FState Cost).

(** C1. Two instances built by [sdm_init] with the same configuration
    produce identical output for the same input stream: through the sample
    API (any [sdm_process] capacities, then [sdm_drain] until it reports
    zero) and through the packet API (any split of the stream into
    [sdm_packet_process] calls, then [sdm_packet_drain] until it returns
    zero), whatever the call schedule of each run. *)
Theorem sdm_output_deterministic name freq order num lat (s1 s2 : state) :
  sdm_init name freq order num lat = Ok s1 ->
  sdm_init name freq order num lat = Ok s2 ->
  (forall xs caps1 dcaps1 caps2 dcaps2 o1 o2,
     Forall (fun c => 0 < c) dcaps1 -> Forall (fun c => 0 < c) dcaps2 ->
     sample_session s1 xs caps1 dcaps1 = Some o1 ->
     sample_session s2 xs caps2 dcaps2 = Some o2 -> o1 = o2) /\
  (forall chunks1 chunks2 sizes1 sizes2 o1 o2,
     concat chunks1 = concat chunks2 ->
     Forall (fun c => 0 < c) sizes1 -> Forall (fun c => 0 < c) sizes2 ->
     packet_session s1 chunks1 sizes1 = Some o1 ->
     packet_session s2 chunks2 sizes2 = Some o2 -> o1 = o2).
Proof.
  intros E1 E2; rewrite E1 in E2; injection E2 as <-.
  destruct (sdm_init_spec _ _ _ _ _ _ E1) as (_ & P0 & N0 & _).
  split.
  - intros xs caps1 dcaps1 caps2 dcaps2 o1 o2 D1 D2 S1 S2.
    rewrite (sample_session_spec _ _ _ _ _ D1 S1), (sample_session_spec _ _ _ _ _ D2 S2).
    reflexivity.
  - intros chunks1 chunks2 sizes1 sizes2 o1 o2 C Z1 Z2 S1 S2.
    assert (Hn : packet_bits s1 < 8) by lia.
    assert (Ha : (0 <= packet s1 < 2 ^ Z.of_nat (packet_bits s1))%Z)
      by (rewrite P0, N0; simpl; lia).
    apply unpack_inj.
    + exact (packet_session_range _ _ _ _ S1 Hn Ha).
    + exact (packet_session_range _ _ _ _ S2 Hn Ha).
    + rewrite (packet_session_spec _ _ _ _ Z1 Hn S1), (packet_session_spec _ _ _ _ Z2 Hn S2), C.
      reflexivity.
Qed.

(** C2. For two instances built with the same configuration, if two
    streams of at least [n + trellis_latency] samples agree on their first
    [n + trellis_latency] samples, the first [n] bits finalized while
    processing them agree, and so do the first [n] output samples of
    complete sample-API runs on them. *)
Theorem finalized_prefix_determined name freq order num lat (s1 s2 : state) n xs ys :
  sdm_init name freq order num lat = Ok s1 ->
  sdm_init name freq order num lat = Ok s2 ->
  n + lat <= length xs -> n + lat <= length ys ->
  firstn (n + lat) xs = firstn (n + lat) ys ->
  firstn n (snd (trellis_run (cfg s1) (map smp_of_sample xs) (cands s1))) =
    firstn n (snd (trellis_run (cfg s2) (map smp_of_sample ys) (cands s2))) /\
  (forall caps1 dcaps1 caps2 dcaps2 o1 o2,
     Forall (fun c => 0 < c) dcaps1 -> Forall (fun c => 0 < c) dcaps2 ->
     sample_session s1 xs caps1 dcaps1 = Some o1 ->
     sample_session s2 ys caps2 dcaps2 = Some o2 ->
     firstn n o1 = firstn n o2).
Proof.
  intros E1 E2 Lx Ly Pf; rewrite E1 in E2; injection E2 as <-.
  destruct (fresh_prefix _ _ _ _ _ _ (map smp_of_sample xs) n E1 ltac:(rewrite length_map; lia))
    as [X1 X2].
  destruct (fresh_prefix _ _ _ _ _ _ (map smp_of_sample ys) n E1 ltac:(rewrite length_map; lia))
    as [Y1 Y2].
  rewrite !firstn_map, Pf in X1, X2.
  rewrite !firstn_map in Y1, Y2.
  split; [rewrite X1, Y1; reflexivity|].
  intros caps1 dcaps1 caps2 dcaps2 o1 o2 D1 D2 S1 S2.
  rewrite (sample_session_spec _ _ _ _ _ D1 S1), (sample_session_spec _ _ _ _ _ D2 S2).
  rewrite !firstn_map, X2, Y2; reflexivity.
Qed.

(** C3 (amended). With a beam width [trellis_num] of at least 1, a complete
    sample-API run (process calls consuming the whole stream, then drain
    calls, each with an output capacity of at least one sample, until one
    reports zero) outputs exactly as many samples as it consumed. *)
Theorem session_output_length name freq order num lat (s : state) xs caps dcaps o :
  sdm_init name freq order num lat = Ok s -> 1 <= num ->
  Forall (fun c => 0 < c) dcaps ->
  sample_session s xs caps dcaps = Some o -> length o = length xs.
Proof.
  intros E Hn D S.
  rewrite (sample_session_spec _ _ _ _ _ D S), length_map.
  rewrite (fresh_future_length _ _ _ _ _ _ _ E Hn), length_map; reflexivity.
Qed.

(** C4. For the same configuration and the same stream, the bytes of a
    complete packet-API run, unpacked most significant bit first, are the
    bits of a complete sample-API run (sample > 0 read as 1) followed by
    fewer than 8 zero bits that complete the last byte. *)
Theorem packet_matches_samples name freq order num lat (s : state) zs chunks caps dcaps sizes so o :
  sdm_init name freq order num lat = Ok s ->
  concat chunks = map smp_of_sample zs ->
  Forall (fun c => 0 < c) dcaps -> Forall (fun c => 0 < c) sizes ->
  sample_session s zs caps dcaps = Some so ->
  packet_session s chunks sizes = Some o ->
  unpack o = map sample_bit so ++ repeat false (zpad (length so)) /\ zpad (length so) < 8.
Proof.
  intros E C D Hz S P.
  destruct (sdm_init_spec _ _ _ _ _ _ E) as (_ & P0 & N0 & _).
  rewrite (sample_session_spec _ _ _ _ _ D S), sample_bit_out, length_map.
  split; [|unfold zpad; apply Nat.mod_upper_bound; lia].
  rewrite (packet_session_spec s chunks sizes o Hz ltac:(lia) P), C.
  unfold acc_bits; rewrite N0; reflexivity.
Qed.

(** C5. [sdm_init] fails with a configuration error when the filter name is
    not known for the rate or a trellis parameter exceeds its maximum. *)
Theorem init_rejects_bad_config name freq order num lat :
  (@fb_lookup Smp Coef FState Cost FB name freq = None \/ SDM_TRELLIS_MAX_ORDER < order \/
   SDM_TRELLIS_MAX_NUM < num \/ SDM_TRELLIS_MAX_LAT < lat) ->
  @sdm_init Smp Coef FState Cost FB name freq order num lat = Err ConfigError.
Proof.
  unfold sdm_init; intros H.
  destruct (fb_lookup name freq) as [c|]; [|reflexivity].
  destruct H as [H|[H|[H|H]]]; [discriminate|..].
  - apply Nat.ltb_lt in H; rewrite H; reflexivity.
  - apply Nat.ltb_lt in H; rewrite H.
    destruct (SDM_TRELLIS_MAX_ORDER <? order); reflexivity.
  - apply Nat.ltb_lt in H; rewrite H.
    destruct (SDM_TRELLIS_MAX_ORDER <? order), (SDM_TRELLIS_MAX_NUM <? num); reflexivity.
Qed.

(** C6. [sdm_process] fails exactly on a null input buffer, a null output
    buffer, or a zero output capacity with a non-empty input; whatever the
    sample values. Otherwise it returns the consumed count [k <= ilen] and
    the written count [m <= olen] with [m] samples written; it consumes
    fewer than [ilen] samples only when it filled the output; the samples
    written followed by everything the instance will still deliver are
    what the instance would have delivered for the whole input, and the
    engine has processed exactly the first [k] samples. *)
Theorem process_contract (s : state) ibuf obuf_ok ilen olen :
  ((exists e, sdm_process s ibuf obuf_ok ilen olen = Err e) <->
   (ibuf = None \/ obuf_ok = false \/ (olen = 0 /\ 0 < ilen))) /\
  (forall buf, ibuf = Some buf -> obuf_ok = true -> (0 < olen \/ ilen = 0) ->
   exists s' k out,
     sdm_process s ibuf obuf_ok ilen olen = Ok (s', k, length out, out) /\
     k <= ilen /\ length out <= olen /\
     (ilen <= length buf -> k < ilen -> length out = olen) /\
     cands s' = fst (trellis_run (cfg s) (firstn k (map smp_of_sample (firstn ilen buf))) (cands s)) /\
     exists bits, out = map out_sample bits /\
       bits ++ future s' (skipn k (map smp_of_sample (firstn ilen buf))) =
         future s (map smp_of_sample (firstn ilen buf))).
Proof.
  split.
  - unfold sdm_process; split.
    + intros [e E]; destruct ibuf as [buf|]; [|left; reflexivity].
      destruct obuf_ok; [|right; left; reflexivity].
      cbn [negb] in E.
      destruct ((olen =? 0) && (0 <? ilen)) eqn:C.
      * apply andb_true_iff in C; destruct C as [C1 C2].
        apply Nat.eqb_eq in C1; apply Nat.ltb_lt in C2; right; right; split; assumption.
      * destruct (process_loop (map smp_of_sample (firstn ilen buf)) olen s) as [[s' k] o];
          discriminate.
    + intros [H|[H|[H1 H2]]].
      * subst; exists InvalidArgument; reflexivity.
      * subst; destruct ibuf; exists InvalidArgument; reflexivity.
      * destruct ibuf as [buf|]; [|exists InvalidArgument; reflexivity].
        destruct (negb obuf_ok); [exists InvalidArgument; reflexivity|].
        apply Nat.eqb_eq in H1; apply Nat.ltb_lt in H2; rewrite H1, H2.
        exists InvalidArgument; reflexivity.
  - intros buf -> -> H; unfold sdm_process; cbn [negb].
    assert (C : (olen =? 0) && (0 <? ilen) = false).
    { destruct H as [H|H]; [destruct olen; [lia|reflexivity]|subst; rewrite andb_false_r; reflexivity]. }
    rewrite C.
    destruct (process_loop (map smp_of_sample (firstn ilen buf)) olen s) as [[s' k] o] eqn:P.
    destruct (process_loop_spec _ _ _ _ _ _ P) as (G1 & G2 & G3 & G4 & G5 & G6 & G7 & G8 & G9).
    rewrite length_map, length_firstn in G4, G6.
    exists s', k, (map out_sample o).
    split; [rewrite length_map; reflexivity|].
    split; [lia|]. split; [rewrite length_map; exact G5|].
    split; [intros L1 L2; rewrite length_map; apply G6; lia|].
    split; [exact G8|].
    exists o; split; [reflexivity|exact G9].
Qed.

(** C7. From any reachable instance, [sdm_packet_process] consumes the whole
    input (the engine processes every sample), leaves no finalized bit
    outside the accumulator, and the returned bytes followed by the
    accumulator are the accumulator before the call followed by the bits
    finalized; the byte count is the number of whole bytes these bits
    complete. *)
Theorem packet_process_contract (s : state) ds s' o :
  reachable s -> sdm_packet_process s ds = (s', o) ->
  cands s' = fst (trellis_run (cfg s) ds (cands s)) /\ cfg s' = cfg s /\
  pending s' = [] /\ packet_bits s' < 8 /\
  unpack o ++ acc_bits s' = acc_bits s ++ snd (trellis_run (cfg s) ds (cands s)) /\
  length o = (packet_bits s + length (snd (trellis_run (cfg s) ds (cands s)))) / 8.
Proof.
  intros R E.
  destruct (reachable_inv s R) as (I1 & I2 & _).
  destruct (packet_process_spec _ _ _ _ E I2) as (G1 & G2 & G3 & G4 & G5 & G6).
  assert (Pn : pending s' = []) by (apply G6; left; exact I1).
  rewrite I1, Pn in G4; rewrite I1, Pn in G5; rewrite !app_nil_r in G4; simpl in G5.
  split; [exact G3|]. split; [exact G1|]. split; [exact Pn|]. split; [exact G2|].
  split; [exact G4|].
  apply (Nat.div_unique _ 8 _ (packet_bits s')); lia.
Qed.

(** C8 (amended). From a reachable instance, draining with output buffers
    of at least one sample (one byte) ends: [sdm_drain] reports zero within
    one call more than the bits still to be delivered, and [sdm_packet_drain]
    returns zero within two calls more than the bits still held; at that
    point the candidate set and the pending queue (and the accumulator) are
    empty. *)
Theorem drains_terminate (s : state) caps sizes :
  reachable s ->
  Forall (fun c => 0 < c) caps -> length (future s []) < length caps ->
  Forall (fun c => 0 < c) sizes -> length (rem_bits s) + 2 <= length sizes ->
  (exists s' o, drain_all caps s = Some (s', o) /\ pending s' = [] /\ cands s' = []) /\
  (exists s' o, packet_drain_all sizes s = Some (s', o) /\ drained s').
Proof.
  intros R Hc Lc Hs Ls.
  destruct (reachable_inv s R) as (_ & I2 & _).
  split; [apply drain_all_terminates; assumption|].
  apply packet_drain_all_terminates; assumption.
Qed.

(** C9. In every reachable instance the candidate set holds at most
    [trellis_num] paths, and all candidates carry the same number of
    undecided bits, at most [trellis_latency]. *)
Theorem candidates_bounded (s : state) :
  reachable s ->
  length (cands s) <= trellis_num (cfg s) /\
  forall p q, In p (cands s) -> In q (cands s) ->
    length (p_bits p) = length (p_bits q) /\ length (p_bits p) <= trellis_latency (cfg s).
Proof.
  intros R; destruct (reachable_inv s R) as (_ & _ & Hl & k & Hk & Hf).
  split; [exact Hl|].
  intros p q Hp Hq; rewrite Forall_forall in Hf.
  rewrite (Hf p Hp), (Hf q Hq); split; [reflexivity|exact Hk].
Qed.

(** C10. From a reachable instance, [sdm_packet_process] on [in_len]
    samples writes at most [(in_len + 7) / 8] bytes; and this can be one
    byte more than [in_len / 8]: for any known filter, an instance of beam
    width 1 and latency 0 that has processed 7 samples writes one byte for
    a single further sample. *)
Theorem packet_process_bound :
  (forall (s : state) ds s' o, reachable s -> sdm_packet_process s ds = (s', o) ->
     length o <= (length ds + 7) / 8) /\
  (forall name freq c (x : Smp) (xs : list Smp),
     fb_lookup name freq = Some c -> length xs = 7 ->
     exists (s : state) s' o, reachable s /\ sdm_packet_process s [x] = (s', o) /\
       length o = length [x] / 8 + 1).
Proof.
  split.
  - intros s ds s' o R E.
    destruct (reachable_inv s R) as (I1 & I2 & _).
    destruct (packet_process_spec _ _ _ _ E I2) as (_ & G2 & _ & _ & G5 & G6).
    assert (Pn : pending s' = []) by (apply G6; left; exact I1).
    rewrite I1, Pn in G5; simpl in G5.
    pose proof (trellis_run_fin_length (cfg s) ds (cands s)).
    apply Nat.div_le_lower_bound; lia.
  - intros name freq c x xs Hc L.
    set (s0 := {| cfg := {| coefs := c; trellis_order := 0; trellis_num := 1; trellis_latency := 0 |};
                  cands := [root_path c 0]; pending := []; packet := 0%Z; packet_bits := 0 |}
           : state).
    assert (E0 : sdm_init name freq 0 1 0 = Ok s0) by (unfold sdm_init; rewrite Hc; reflexivity).
    destruct (sdm_packet_process s0 xs) as [s1 o1] eqn:E1.
    assert (R1 : reachable s1) by (apply (reach_packet_process s0 xs s1 o1); [exact (reach_init _ _ _ _ _ _ E0)|exact E1]).
    destruct (packet_process_spec _ _ _ _ E1 ltac:(simpl; lia)) as (A1 & A2 & A3 & _ & A5 & A6).
    destruct (trellis_run_shape (cfg s0) xs (cands s0) 0 ltac:(simpl; lia) ltac:(simpl; discriminate)
                ltac:(simpl; repeat constructor) ltac:(simpl; lia)) as (B1 & B2 & B3).
    assert (P1 : pending s1 = []) by (apply A6; left; reflexivity).
    rewrite P1, B3, L in A5; simpl in A5.
    destruct (sdm_packet_process s1 [x]) as [s2 o2] eqn:E2.
    exists s1, s2, o2; split; [exact R1|]. split; [exact E2|].
    destruct (packet_process_spec _ _ _ _ E2 A2) as (_ & C2 & _ & _ & C5 & C6).
    assert (P2 : pending s2 = []) by (apply C6; left; exact P1).
    rewrite <- A3 in B1, B2; rewrite L in B2.
    assert (N1 : 1 <= trellis_num (cfg s1)) by (rewrite A1; simpl; lia).
    assert (F1 : Forall (fun p => length (p_bits p) = 0) (cands s1)) by (rewrite A1 in *; exact B2).
    assert (T1 : 0 <= trellis_latency (cfg s1)) by lia.
    destruct (trellis_run_shape (cfg s1) [x] (cands s1) 0 N1 B1 F1 T1) as (_ & _ & D3).
    rewrite P1, P2, D3, A1 in C5; simpl in C5; simpl; lia.
Qed.

End Claims.

(** * Properties documented in [sdm.h] *)

Section Header.
Context {Smp Coef FState Cost : Type} `{FB : FilterBank Smp Coef FState Cost}.
Local Abbreviation state := (@sdm Coef FState Cost).

(** The packet accumulator of a reachable instance holds exactly
    [packet_bits] bits. *)
Lemma reachable_packet_range (s : state) :
  reachable s -> (0 <= packet s < 2 ^ Z.of_nat (packet_bits s))%Z.
Proof.
  induction 1 as [name freq order num lat s E
                 |s ibuf ilen olen s' k m out Hr IH E
                 |s olen s' out Hr IH E
                 |s ds s' out Hr IH E
                 |s room s' out Hr IH E].
  - destruct (sdm_init_spec _ _ _ _ _ _ E) as (_ & P0 & N0 & _).
    rewrite P0, N0; simpl; lia.
  - unfold sdm_process in E; destruct ibuf as [buf|]; [|discriminate].
    cbn [negb] in E.
    destruct ((olen =? 0) && (0 <? ilen)); [discriminate|].
    destruct (process_loop (map smp_of_sample (firstn ilen buf)) olen s) as [[s1 k1] o1] eqn:P.
    injection E as E1 E2 E3 E4; subst.
    destruct (process_loop_spec _ _ _ _ _ _ P) as (_ & G2 & G3 & _).
    rewrite G2, G3; exact IH.
  - unfold sdm_drain in E; cbn [negb] in E.
    destruct (drain_loop olen s) as [s1 o1] eqn:D; injection E as E1 E2; subst.
    destruct (drain_loop_spec _ _ _ _ D) as (_ & _ & _ & _ & G5 & G6 & _).
    rewrite G5, G6; exact IH.
  - destruct (reachable_inv s Hr) as (_ & I2 & _).
    exact (proj2 (packet_process_range _ _ _ _ E I2 IH)).
  - destruct (reachable_inv s Hr) as (_ & I2 & _).
    exact (proj2 (packet_drain_range _ _ _ _ E I2 IH)).
Qed.

(** [sdm_packet_drain] writes at most [outBufSize] bytes, the size of the
    [outPackets] buffer, from any instance. *)
Theorem packet_drain_within_buffer (s : state) room s' o :
  sdm_packet_drain s room = (s', o) -> length o <= room.
Proof.
  revert s s' o; induction room as [|r IH]; intros s s' o E.
  - simpl in E; injection E as E1 E2; subst; simpl; lia.
  - rewrite packet_drain_S in E.
    destruct (fill (8 - packet_bits s) s (packet s) (packet_bits s)) as [[s1 a] m] eqn:F.
    destruct (8 <=? m).
    + destruct (sdm_packet_drain (set_packet s1 0 0) r) as [s2 o2] eqn:E2.
      injection E as E3 E4; subst; simpl.
      specialize (IH _ _ _ E2); lia.
    + revert E; generalize (Z.shiftl a (Z.of_nat (8 - m))) as z; intros z E.
      destruct (m =? 0); injection E as E3 E4; subst; simpl; lia.
Qed.

(** Every byte [sdm_packet_process] and [sdm_packet_drain] write from a
    reachable instance is in [0, 255]: it fits the [uint8_t] elements of
    [outPackets] without truncation. *)
Theorem packet_bytes_are_uint8 (s : state) :
  reachable s ->
  (forall ds s' o, sdm_packet_process s ds = (s', o) -> Forall byte_range o) /\
  (forall room s' o, sdm_packet_drain s room = (s', o) -> Forall byte_range o).
Proof.
  intros R.
  destruct (reachable_inv s R) as (_ & I2 & _).
  pose proof (reachable_packet_range s R) as Ra.
  split.
  - intros ds s' o E; exact (proj1 (packet_process_range _ _ _ _ E I2 Ra)).
  - intros room s' o E; exact (proj1 (packet_drain_range _ _ _ _ E I2 Ra)).
Qed.

End Header.

(** * The claims on concrete runs of the [ef1] filter bank *)

Import Ef1.

Lemma fresh_init : sdm_init "ef1"%string 0 0 2 1 = Ok fresh.
Proof. reflexivity. Qed.

Lemma fresh_reachable : reachable fresh.
Proof. exact (reach_init _ _ _ _ _ _ fresh_init). Qed.

Lemma after2_reachable : reachable after2.
Proof.
  apply (reach_packet_process fresh [5; -3]%Z after2 (snd (sdm_packet_process fresh [5; -3]%Z))).
  - exact fresh_reachable.
  - vm_compute; reflexivity.
Qed.

Lemma sdm_output_deterministic_witness :
  sdm_init "ef1"%string 0 0 2 1 = Ok fresh /\
  (forall xs caps1 dcaps1 caps2 dcaps2 o1 o2,
     Forall (fun c => 0 < c) dcaps1 -> Forall (fun c => 0 < c) dcaps2 ->
     sample_session fresh xs caps1 dcaps1 = Some o1 ->
     sample_session fresh xs caps2 dcaps2 = Some o2 -> o1 = o2) /\
  (forall chunks1 chunks2 sizes1 sizes2 o1 o2,
     concat chunks1 = concat chunks2 ->
     Forall (fun c => 0 < c) sizes1 -> Forall (fun c => 0 < c) sizes2 ->
     packet_session fresh chunks1 sizes1 = Some o1 ->
     packet_session fresh chunks2 sizes2 = Some o2 -> o1 = o2).
Proof.
  split; [reflexivity|].
  exact (@sdm_output_deterministic Z Z Z Z bank "ef1"%string 0 0 2 1 fresh fresh
           ltac:(reflexivity) ltac:(reflexivity)).
Defined.

Lemma finalized_prefix_determined_witness :
  firstn 2 (snd (trellis_run (cfg fresh) stream (cands fresh))) =
    firstn 2 (snd (trellis_run (cfg fresh) (stream ++ [7%Z]) (cands fresh))) /\
  (forall caps1 dcaps1 caps2 dcaps2 o1 o2,
     Forall (fun c => 0 < c) dcaps1 -> Forall (fun c => 0 < c) dcaps2 ->
     sample_session fresh stream caps1 dcaps1 = Some o1 ->
     sample_session fresh (stream ++ [7%Z]) caps2 dcaps2 = Some o2 ->
     firstn 2 o1 = firstn 2 o2).
Proof.
  exact (@finalized_prefix_determined Z Z Z Z bank "ef1"%string 0 0 2 1 fresh fresh 2 stream (stream ++ [7%Z])
           ltac:(reflexivity) ltac:(reflexivity) ltac:(vm_compute; lia) ltac:(vm_compute; lia)
           ltac:(reflexivity)).
Defined.

Lemma session_output_length_witness :
  sample_session fresh stream [3] [4; 4] = Some [2147483647; -2147483648; 2147483647]%Z /\
  length [2147483647; -2147483648; 2147483647]%Z = length stream.
Proof.
  split; [vm_compute; reflexivity|].
  apply (@session_output_length Z Z Z Z bank "ef1"%string 0 0 2 1 fresh stream [3] [4; 4]).
  - reflexivity.
  - lia.
  - repeat constructor.
  - vm_compute; reflexivity.
Defined.

(** With beam width 0 no bit is ever finalized: one sample is consumed and
    the complete run outputs nothing. *)
Lemma session_output_length_counterexample :
  sdm_init "ef1"%string 0 0 0 0 = Ok empty_beam /\
  sample_session empty_beam [5%Z] [1] [1] = Some [] /\
  length (@nil Z) <> length [5%Z].
Proof.
  split; [reflexivity|]. split; [vm_compute; reflexivity|]. discriminate.
Qed.

Lemma packet_matches_samples_witness :
  packet_session fresh chunks [1; 1] = Some [160%Z] /\
  unpack [160%Z] = map sample_bit [2147483647; -2147483648; 2147483647]%Z ++ repeat false (zpad 3) /\
  zpad 3 < 8.
Proof.
  split; [vm_compute; reflexivity|].
  apply (@packet_matches_samples Z Z Z Z bank "ef1"%string 0 0 2 1 fresh stream chunks [3] [4; 4] [1; 1]
           [2147483647; -2147483648; 2147483647]%Z [160%Z]).
  - reflexivity.
  - reflexivity.
  - repeat constructor.
  - repeat constructor.
  - vm_compute; reflexivity.
  - vm_compute; reflexivity.
Defined.

Lemma init_rejects_bad_config_witness :
  @sdm_init Z Z Z Z bank "ef1"%string 0 33 1 1 = Err ConfigError.
Proof.
  apply (@init_rejects_bad_config Z Z Z Z bank "ef1"%string 0 33 1 1).
  right; left; unfold SDM_TRELLIS_MAX_ORDER; lia.
Defined.

Lemma process_contract_witness :
  (exists e, sdm_process fresh None true 3 1 = Err e) /\
  exists s' k out,
    sdm_process fresh (Some stream) true 3 1 = Ok (s', k, length out, out) /\
    k <= 3 /\ length out <= 1 /\
    (3 <= length stream -> k < 3 -> length out = 1) /\
    cands s' = fst (trellis_run (cfg fresh) (firstn k (map smp_of_sample (firstn 3 stream))) (cands fresh)) /\
    exists bits, out = map out_sample bits /\
      bits ++ future s' (skipn k (map smp_of_sample (firstn 3 stream))) =
        future fresh (map smp_of_sample (firstn 3 stream)).
Proof.
  destruct (@process_contract Z Z Z Z bank fresh None true 3 1) as [[_ H1] _].
  destruct (@process_contract Z Z Z Z bank fresh (Some stream) true 3 1) as [_ H2].
  split; [apply H1; left; reflexivity|].
  apply (H2 stream); [reflexivity|reflexivity|left; lia].
Defined.

Lemma packet_process_contract_witness :
  cands after2 = fst (trellis_run (cfg fresh) [5; -3]%Z (cands fresh)) /\ cfg after2 = cfg fresh /\
  pending after2 = [] /\ packet_bits after2 < 8 /\
  unpack (snd (sdm_packet_process fresh [5; -3]%Z)) ++ acc_bits after2 =
    acc_bits fresh ++ snd (trellis_run (cfg fresh) [5; -3]%Z (cands fresh)) /\
  length (snd (sdm_packet_process fresh [5; -3]%Z)) =
    (packet_bits fresh + length (snd (trellis_run (cfg fresh) [5; -3]%Z (cands fresh)))) / 8.
Proof.
  apply (@packet_process_contract Z Z Z Z bank fresh [5; -3]%Z after2
           (snd (sdm_packet_process fresh [5; -3]%Z))).
  - exact fresh_reachable.
  - vm_compute; reflexivity.
Defined.

Lemma drains_terminate_witness :
  (exists s' o, drain_all [1; 1] after2 = Some (s', o) /\ pending s' = [] /\ cands s' = []) /\
  (exists s' o, packet_drain_all [1; 1; 1; 1] after2 = Some (s', o) /\ drained s').
Proof.
  apply (@drains_terminate Z Z Z Z bank after2 [1; 1] [1; 1; 1; 1]).
  - exact after2_reachable.
  - repeat constructor.
  - vm_compute; lia.
  - repeat constructor.
  - vm_compute; lia.
Defined.

(** A drain call with no room reports zero samples (zero bytes) while the
    reachable instance still holds a candidate with an undecided bit. *)
Lemma drains_terminate_counterexample :
  reachable after2 /\
  sdm_drain after2 true 0 = Ok (after2, []) /\
  sdm_packet_drain after2 0 = (after2, []) /\
  cands after2 <> [] /\ future after2 [] <> [].
Proof.
  split; [exact after2_reachable|].
  split; [reflexivity|]. split; [reflexivity|].
  split; vm_compute; discriminate.
Qed.

Lemma candidates_bounded_witness :
  length (cands after2) <= trellis_num (cfg after2) /\
  forall p q, In p (cands after2) -> In q (cands after2) ->
    length (p_bits p) = length (p_bits q) /\ length (p_bits p) <= trellis_latency (cfg after2).
Proof.
  apply (@candidates_bounded Z Z Z Z bank after2).
  exact after2_reachable.
Defined.

Lemma packet_process_bound_witness :
  length (snd (sdm_packet_process after2 [2%Z])) <= (length [2%Z] + 7) / 8 /\
  exists s s' o, reachable s /\ sdm_packet_process s [5%Z] = (s', o) /\
    length o = length [5%Z] / 8 + 1.
Proof.
  destruct (@packet_process_bound Z Z Z Z bank) as [B1 B2].
  split.
  - apply (B1 after2 [2%Z] (fst (sdm_packet_process after2 [2%Z]))).
    + exact after2_reachable.
    + vm_compute; reflexivity.
  - apply (B2 "ef1"%string 0 1%Z 5%Z [1; 2; 3; 4; 5; 6; 7]%Z); reflexivity.
Defined.

Lemma packet_bytes_are_uint8_witness :
  Forall byte_range (snd (sdm_packet_process after2 [2; -7; 4; 1; 3; -2; 6; 5]%Z)) /\
  Forall byte_range (snd (sdm_packet_drain after2 2)).
Proof.
  destruct (@packet_bytes_are_uint8 Z Z Z Z bank after2 after2_reachable) as [B1 B2].
  split.
  - apply (B1 [2; -7; 4; 1; 3; -2; 6; 5]%Z (fst (sdm_packet_process after2 [2; -7; 4; 1; 3; -2; 6; 5]%Z))).
    vm_compute; reflexivity.
  - apply (B2 2 (fst (sdm_packet_drain after2 2))).
    vm_compute; reflexivity.
Defined.

Lemma packet_drain_within_buffer_witness :
  length (snd (sdm_packet_drain after2 1)) <= 1.
Proof.
  apply (packet_drain_within_buffer after2 1 (fst (sdm_packet_drain after2 1))).
  vm_compute; reflexivity.
Defined.
